(** * JSON Diff Viewer: the normalise-and-diff pipeline of [src/App.tsx]

    A shallow embedding of the functions of [src/App.tsx]
    ([tryParseJson], [normalizeForCompare], [useJsonDiff], [onFormat],
    [onSwap], [renderedLines], [diffText]) together with the parts of the
    ECMAScript host they call, and the properties of the specification
    stated over them.

    Conventions.
    - A JavaScript string is a Rocq [string]: a sequence of code units, here
      the code units 0..255.
    - What the host decides and the repository does not (the number type and
      its printing, the collation behind [localeCompare], the JSON decoder
      and its messages, the [diff] package) is a field of the class [Host];
      the general theorems hold for every host.  [ModelHost] is one concrete
      host, used to evaluate the definitions on examples.
    - A plain JavaScript object is the list of its own properties in
      property-enumeration order: array-index keys first, in ascending
      numeric order, then the other keys in creation order. *)

From Stdlib Require Import List String Ascii Bool ZArith NArith Lia.
From Stdlib Require Import Permutation Sorted DecimalString DecimalN FinFun.
Import ListNotations.

Local Open Scope list_scope.
Local Open Scope string_scope.

(* ================================================================== *)
(** * Strings *)

Module Str.

Definition LF : ascii := "010"%char.
Definition QUOTE : ascii := "034"%char.
Definition BACKSLASH : ascii := "092"%char.

Definition str1 (c : ascii) : string := String c EmptyString.

(** [s.split(sep)] for a one-character separator: the fragments between
    the separators, always at least one. *)
Fixpoint split (sep : ascii) (s : string) : list string :=
    match s with
    | EmptyString => [EmptyString]
    | String c r =>
        if Ascii.eqb c sep then EmptyString :: split sep r
        else match split sep r with
             | [] => [str1 c]
             | f :: fs => String c f :: fs
             end
    end.

(** [l.join(sep)]. *)
Fixpoint join (sep : string) (l : list string) : string :=
    match l with
    | [] => EmptyString
    | x :: r =>
        match r with
        | [] => x
        | _ :: _ => x ++ sep ++ join sep r
        end
    end.

(** Whether the code unit [c] occurs in [s]. *)
Fixpoint hasChar (c : ascii) (s : string) : bool :=
    match s with
    | EmptyString => false
    | String x r => (Ascii.eqb x c || hasChar c r)%bool
    end.

(** White space and line terminators of ECMAScript among the code units
    0..255: TAB, LF, VT, FF, CR, SP and NBSP. *)
Definition isWhiteSpace (c : ascii) : bool :=
    let n := nat_of_ascii c in
    (Nat.eqb n 9 || Nat.eqb n 10 || Nat.eqb n 11 || Nat.eqb n 12
     || Nat.eqb n 13 || Nat.eqb n 32 || Nat.eqb n 160)%bool.

Fixpoint trimStart (s : string) : string :=
    match s with
    | EmptyString => EmptyString
    | String c r => if isWhiteSpace c then trimStart r else s
    end.

Fixpoint trimEnd (s : string) : string :=
    match s with
    | EmptyString => EmptyString
    | String c r =>
        match trimEnd r with
        | EmptyString => if isWhiteSpace c then EmptyString else str1 c
        | r' => String c r'
        end
    end.

(** [s.trim()]. *)
Definition trim (s : string) : string := trimEnd (trimStart s).

(** The concatenation of a list of strings. *)
Definition concatAll (l : list string) : string :=
    fold_right String.append EmptyString l.

Fixpoint repeat0 (n : nat) : string :=
    match n with
    | O => EmptyString
    | S k => String "0"%char (repeat0 k)
    end.

(** The decimal numeral of a natural number. *)
Definition ofN (n : N) : string := NilEmpty.string_of_uint (N.to_uint n).

Definition ofZ (z : Z) : string :=
    match z with
    | Zneg p => "-" ++ ofN (Npos p)
    | _ => ofN (Z.to_N z)
    end.

Definition hexDigit (n : nat) : ascii :=
    match n with
    | 0 => "0" | 1 => "1" | 2 => "2" | 3 => "3" | 4 => "4" | 5 => "5"
    | 6 => "6" | 7 => "7" | 8 => "8" | 9 => "9" | 10 => "a" | 11 => "b"
    | 12 => "c" | 13 => "d" | 14 => "e" | _ => "f"
    end%char.

End Str.

(* ================================================================== *)
(** * Values, completions and the host *)

(** The values [JSON.parse] produces.  [Num] is the host's number type. *)
#[local] Unset Elimination Schemes.
Inductive Value {Num : Type} : Type :=
| JNull
| JBool (b : bool)
| JNumber (n : Num)
| JString (s : string)
| JArray (elems : list Value)
| JObject (props : list (string * Value)).
Arguments Value : clear implicits.
#[local] Set Elimination Schemes.

(** A thrown [Error] object: its constructor name and its [message]. *)
Record Error : Type := mkError { name : string; message : string }.

(** A call either returns or throws. *)
Inductive Completion (A : Type) : Type :=
| Normal (a : A)
| Throw (e : Error).
Arguments Normal {A} a.
Arguments Throw {A} e.

(** One part of the result of the [diff] package ([Change]); an absent
    [added] or [removed] flag reads as [false]. *)
Record Change : Type := mkChange { value : string; added : bool; removed : bool }.

Class Host : Type := {
  (** the Number type, with [Number::toString] in radix 10 *)
  Number : Type;
  Number_toString : Number -> string;
  (** neither NaN nor an infinity *)
  Number_isFinite : Number -> bool;
  (** [ToBoolean]: false on +0, -0 and NaN *)
  Number_toBoolean : Number -> bool;
  (** [a.localeCompare(b)]: negative, zero or positive *)
  localeCompare : string -> string -> Z;
  (** [JSON.parse(text)]: a value, or a thrown [SyntaxError] *)
  JSON_parse : string -> Completion (Value Number);
  (** [diffJson(oldStr, newStr)] of the [diff] package, on two strings *)
  diffJson : string -> string -> list Change
}.

(** What ECMAScript requires of a comparison usable for sorting, on the
    collation order [localeCompare a b <= 0]. *)
Class HostLaws (H : Host) : Prop := {
  localeCompare_total :
    forall a b, (localeCompare a b <= 0)%Z \/ (localeCompare b a <= 0)%Z;
  localeCompare_trans :
    forall a b c, (localeCompare a b <= 0)%Z -> (localeCompare b c <= 0)%Z ->
                  (localeCompare a c <= 0)%Z
}.

(** Induction on values, with the hypothesis on every element and on every
    property value. *)
Section ValueInduction.
Context {Num : Type}.
Variable P : Value Num -> Prop.
Hypothesis Hnull : P JNull.
Hypothesis Hbool : forall b, P (JBool b).
Hypothesis Hnum : forall n, P (JNumber n).
Hypothesis Hstr : forall s, P (JString s).
Hypothesis Harr : forall elems, Forall P elems -> P (JArray elems).
Hypothesis Hobj :
    forall props, Forall (fun kv => P (snd kv)) props -> P (JObject props).

Fixpoint Value_ind' (v : Value Num) : P v :=
    match v with
    | JNull => Hnull
    | JBool b => Hbool b
    | JNumber n => Hnum n
    | JString s => Hstr s
    | JArray elems =>
        Harr elems
          ((fix go (l : list (Value Num)) : Forall P l :=
              match l with
              | [] => Forall_nil _
              | x :: r => Forall_cons x (Value_ind' x) (go r)
              end) elems)
    | JObject props =>
        Hobj props
          ((fix go (l : list (string * Value Num))
              : Forall (fun kv => P (snd kv)) l :=
              match l with
              | [] => Forall_nil _
              | kv :: r => Forall_cons kv (Value_ind' (snd kv)) (go r)
              end) props)
    end.
End ValueInduction.

(* ================================================================== *)
(** * Host built-ins used by the application *)

(** [Array.prototype.sort(comparefn)].  The result ECMAScript prescribes for
    a consistent comparison is the stable sorted arrangement, whatever the
    algorithm; it is computed here by stable insertion. *)
Section ArraySort.
Context {A : Type}.
Variable comparefn : A -> A -> Z.

Fixpoint sort_insert (x : A) (l : list A) : list A :=
    match l with
    | [] => [x]
    | y :: r => if (comparefn x y <=? 0)%Z then x :: y :: r
                else y :: sort_insert x r
    end.

Fixpoint Array_sort (l : list A) : list A :=
    match l with
    | [] => []
    | x :: r => sort_insert x (Array_sort r)
    end.

(** [x] does not sort after [y]. *)
Definition cmpLe (x y : A) : Prop := (comparefn x y <= 0)%Z.
End ArraySort.

(** Plain objects. *)
Module Obj.
Section Obj.
Context {V : Type}.

(** The array index a property key denotes, if it is the canonical
    numeral of an integer below 2^32 - 1. *)
Definition arrayIndex (k : string) : option N :=
    match NilEmpty.uint_of_string k with
    | Some u =>
        let n := N.of_uint u in
        if (String.eqb (Str.ofN n) k && (n <? 4294967295)%N)%bool
        then Some n else None
    | None => None
    end.

Definition isIndex (k : string) : bool :=
    match arrayIndex k with Some _ => true | None => false end.

(** Where a new key goes in the enumeration order. *)
Fixpoint insertIndex (n : N) (k : string) (v : V) (props : list (string * V))
    : list (string * V) :=
    match props with
    | [] => [(k, v)]
    | (k', v') :: r =>
        match arrayIndex k' with
        | Some n' => if (n <? n')%N then (k, v) :: props
                     else (k', v') :: insertIndex n k v r
        | None => (k, v) :: props
        end
    end.

Fixpoint replace (k : string) (v : V) (props : list (string * V))
    : list (string * V) :=
    match props with
    | [] => []
    | (k', v') :: r =>
        if String.eqb k' k then (k', v) :: r else (k', v') :: replace k v r
    end.

Definition hasOwn (k : string) (props : list (string * V)) : bool :=
    existsb (fun kv => String.eqb (fst kv) k) props.

(** [CreateDataProperty(O, k, v)] on an ordinary object. *)
Definition CreateDataProperty (props : list (string * V)) (k : string) (v : V)
    : list (string * V) :=
    if hasOwn k props then replace k v props
    else match arrayIndex k with
         | Some n => insertIndex n k v props
         | None => (props ++ [(k, v)])%list
         end.

(** [Object.entries(o)]: the own properties in enumeration order. *)
Definition Object_entries (props : list (string * V)) : list (string * V) :=
    props.

(** [Object.fromEntries(entries)]: the properties of the new object. *)
Definition Object_fromEntries (entries : list (string * V))
    : list (string * V) :=
    fold_left (fun o kv => CreateDataProperty o (fst kv) (snd kv)) entries [].

(** The enumeration order as a comparison: index keys by their number,
    every index key before every other key, the other keys in the order
    they have. *)
Definition enumCompare (a b : string * V) : Z :=
    match arrayIndex (fst a), arrayIndex (fst b) with
    | Some n, Some m => (Z.of_N n - Z.of_N m)%Z
    | Some _, None => (-1)%Z
    | None, Some _ => 1%Z
    | None, None => 0%Z
    end.

(** The properties under index keys, and the others. *)
Definition indexEntries (props : list (string * V)) : list (string * V) :=
    filter (fun kv => isIndex (fst kv)) props.

Definition otherEntries (props : list (string * V)) : list (string * V) :=
    filter (fun kv => negb (isIndex (fst kv))) props.

(** [Get(O, k)] restricted to own properties. *)
Fixpoint getOwn (k : string) (props : list (string * V)) : option V :=
    match props with
    | [] => None
    | (k', v) :: r => if String.eqb k' k then Some v else getOwn k r
    end.
End Obj.
End Obj.

(* ================================================================== *)
(** * The application over a host *)

Section Application.
Context {H : Host}.

(** ** [JSON.stringify] *)

(** The escape of one code unit inside a JSON string literal. *)
Definition quoteChar (c : ascii) : string :=
  let n := nat_of_ascii c in
  let esc (x : ascii) := String Str.BACKSLASH (Str.str1 x) in
  if Nat.eqb n 8 then esc "b"%char
  else if Nat.eqb n 9 then esc "t"%char
  else if Nat.eqb n 10 then esc "n"%char
  else if Nat.eqb n 12 then esc "f"%char
  else if Nat.eqb n 13 then esc "r"%char
  else if Nat.eqb n 34 then esc Str.QUOTE
  else if Nat.eqb n 92 then esc Str.BACKSLASH
  else if Nat.ltb n 32 then
    String Str.BACKSLASH
      (String "u" (String "0" (String "0"
         (String (Str.hexDigit (n / 16)) (Str.str1 (Str.hexDigit (n mod 16)))))))
  else Str.str1 c.

Fixpoint quoteBody (s : string) : string :=
  match s with
  | EmptyString => EmptyString
  | String c r => quoteChar c ++ quoteBody r
  end.

Definition QuoteJSONString (s : string) : string :=
  String Str.QUOTE (quoteBody s ++ Str.str1 Str.QUOTE).

(** The text of an array or object from the texts of its members. *)
Definition serializeGroup (opening closing gap stepback indent : string)
  (partial : list string) : string :=
  match partial with
  | [] => opening ++ closing
  | _ :: _ =>
      if String.eqb gap EmptyString
      then opening ++ Str.join "," partial ++ closing
      else opening ++ Str.str1 Str.LF ++ indent
             ++ Str.join ("," ++ Str.str1 Str.LF ++ indent) partial
             ++ Str.str1 Str.LF ++ stepback ++ closing
  end.

(** [SerializeJSONProperty] on a parsed value: no property of such a value
    is callable, so no [toJSON] is invoked and nothing is skipped. *)
Fixpoint SerializeJSONProperty (gap indent : string) (v : Value Number) : string :=
  match v with
  | JNull => "null"
  | JBool b => if b then "true" else "false"
  | JNumber n => if Number_isFinite n then Number_toString n else "null"
  | JString s => QuoteJSONString s
  | JArray elems =>
      serializeGroup "[" "]" gap indent (indent ++ gap)
        (map (SerializeJSONProperty gap (indent ++ gap)) elems)
  | JObject props =>
      serializeGroup "{" "}" gap indent (indent ++ gap)
        (map (fun kv =>
                QuoteJSONString (fst kv) ++ ":"
                  ++ (if String.eqb gap EmptyString then EmptyString else " ")
                  ++ SerializeJSONProperty gap (indent ++ gap) (snd kv))
             props)
  end.

(** [JSON.stringify(v)]. *)
Definition JSON_stringify (v : Value Number) : string :=
  SerializeJSONProperty EmptyString EmptyString v.

(** [JSON.stringify(v, null, 2)]. *)
Definition JSON_stringify_2 (v : Value Number) : string :=
  SerializeJSONProperty "  " EmptyString v.

(** ** [tryParseJson] *)

(** [tryParseJson(input)]: the parsed value, or the caught error returned
    as a value. *)
Definition tryParseJson (input : string) : Value Number + Error :=
  match JSON_parse input with
  | Normal v => inl v
  | Throw e => inr e
  end.

Definition instanceofError (p : Value Number + Error) : bool :=
  match p with
  | inl _ => false
  | inr _ => true
  end.

(** ** [normalizeForCompare] *)

Record Options : Type := mkOptions { sortKeys : bool; ignoreArrayOrder : bool }.

(** The comparison passed to [sort] for array elements. *)
Definition compareSerialized (a b : Value Number) : Z :=
  localeCompare (JSON_stringify a) (JSON_stringify b).

(** The comparison passed to [sort] for object entries. *)
Definition compareKeys (a b : string * Value Number) : Z :=
  localeCompare (fst a) (fst b).

Fixpoint deep (options : Options) (v : Value Number) : Value Number :=
  match v with
  | JArray elems =>
      let mapped := map (deep options) elems in
      JArray (if ignoreArrayOrder options
              then Array_sort compareSerialized mapped
              else mapped)
  | JObject props =>
      let entries :=
        map (fun kv => (fst kv, deep options (snd kv))) (Obj.Object_entries props) in
      let sortedEntries :=
        if sortKeys options then Array_sort compareKeys entries else entries in
      JObject (Obj.Object_fromEntries sortedEntries)
  | _ => v
  end.

(** The entries from which [deep] rebuilds an object: [sortedEntries]. *)
Definition deepEntries (options : Options) (props : list (string * Value Number))
  : list (string * Value Number) :=
  let entries := map (fun kv => (fst kv, deep options (snd kv))) props in
  if sortKeys options then Array_sort compareKeys entries else entries.

Definition normalizeForCompare (v : Value Number) (options : Options) : Value Number :=
  deep options v.

(** The data invariant of parsed values: the keys of every object are
    pairwise distinct. *)
#[local] Unset Elimination Schemes.
Inductive UniqueKeys : Value Number -> Prop :=
| UK_null : UniqueKeys JNull
| UK_bool (b : bool) : UniqueKeys (JBool b)
| UK_number (n : Number) : UniqueKeys (JNumber n)
| UK_string (s : string) : UniqueKeys (JString s)
| UK_array (elems : list (Value Number)) :
    Forall UniqueKeys elems -> UniqueKeys (JArray elems)
| UK_object (props : list (string * Value Number)) :
    NoDup (map fst props) ->
    Forall (fun kv => UniqueKeys (snd kv)) props ->
    UniqueKeys (JObject props).

Fixpoint nodupb (l : list string) : bool :=
  match l with
  | [] => true
  | x :: r => (negb (existsb (String.eqb x) r) && nodupb r)%bool
  end.

(** The same invariant, computed. *)
Fixpoint uniqueKeysb (v : Value Number) : bool :=
  match v with
  | JArray elems => forallb uniqueKeysb elems
  | JObject props =>
      (nodupb (map fst props) && forallb (fun kv => uniqueKeysb (snd kv)) props)%bool
  | _ => true
  end.

(** [Permuted v w]: [w] is [v] with the elements of any of its arrays, at
    any depth, rearranged. *)
Inductive Permuted : Value Number -> Value Number -> Prop :=
| Permuted_refl (v : Value Number) : Permuted v v
| Permuted_array (l l' l'' : list (Value Number)) :
    Forall2 Permuted l l' -> Permutation l' l'' ->
    Permuted (JArray l) (JArray l'')
| Permuted_object (ps qs : list (string * Value Number)) :
    Forall2 (fun p q => fst p = fst q /\ Permuted (snd p) (snd q)) ps qs ->
    Permuted (JObject ps) (JObject qs).

(** [TieFree options v]: in every array of [v], at any depth, two
    normalised elements neither of which sorts after the other are the
    same value. *)
Inductive TieFree (options : Options) : Value Number -> Prop :=
| TF_null : TieFree options JNull
| TF_bool (b : bool) : TieFree options (JBool b)
| TF_number (n : Number) : TieFree options (JNumber n)
| TF_string (s : string) : TieFree options (JString s)
| TF_array (elems : list (Value Number)) :
    Forall (TieFree options) elems ->
    (forall a b,
        In a (map (deep options) elems) -> In b (map (deep options) elems) ->
        cmpLe compareSerialized a b -> cmpLe compareSerialized b a -> a = b) ->
    TieFree options (JArray elems)
| TF_object (props : list (string * Value Number)) :
    Forall (fun kv => TieFree options (snd kv)) props ->
    TieFree options (JObject props).
#[local] Set Elimination Schemes.

(** The comparison of two values by the text the canonical serialiser
    gives them. *)
Definition compareCanonical (a b : Value Number) : Z :=
  localeCompare (JSON_stringify_2 a) (JSON_stringify_2 b).

(** ** Conversions used by [useJsonDiff] *)

Definition bind {A B : Type} (c : Completion A) (k : A -> Completion B)
  : Completion B :=
  match c with
  | Normal a => k a
  | Throw e => Throw e
  end.

Fixpoint sequence {A : Type} (l : list (Completion A)) : Completion (list A) :=
  match l with
  | [] => Normal []
  | c :: r => bind c (fun a => bind (sequence r) (fun t => Normal (a :: t)))
  end.

Definition TypeError_toPrimitive : Error :=
  mkError "TypeError" "Cannot convert object to primitive value".

(** [ToString(v)].  An array prints through [Array.prototype.join]; a plain
    object prints through [Object.prototype.toString] unless an own
    property named [toString] hides it: that property is not callable, the
    inherited [valueOf] returns the object itself, and the conversion
    throws a [TypeError]. *)
Fixpoint ToString (v : Value Number) : Completion string :=
  match v with
  | JNull => Normal "null"
  | JBool b => Normal (if b then "true" else "false")
  | JNumber n => Normal (Number_toString n)
  | JString s => Normal s
  | JArray elems =>
      bind (sequence
              (map (fun x => match x with
                             | JNull => Normal EmptyString
                             | _ => ToString x
                             end) elems))
           (fun parts => Normal (Str.join "," parts))
  | JObject props =>
      if Obj.hasOwn "toString" props then Throw TypeError_toPrimitive
      else Normal "[object Object]"
  end.

(** [ToBoolean(v)]. *)
Definition ToBoolean (v : Value Number) : bool :=
  match v with
  | JNull => false
  | JBool b => b
  | JNumber n => Number_toBoolean n
  | JString s => negb (String.eqb s EmptyString)
  | JArray _ | JObject _ => true
  end.

(** [p?.message], [None] standing for [undefined]: the message of an
    error, the own property [message] of a plain object, and [undefined] on
    every other parsed value. *)
Definition optMessage (p : Value Number + Error) : option (Value Number) :=
  match p with
  | inr e => Some (JString (message e))
  | inl (JObject props) => Obj.getOwn "message" props
  | inl _ => None
  end.

(** [a || b]. *)
Definition orElse (a b : option (Value Number)) : option (Value Number) :=
  match a with
  | Some v => if ToBoolean v then a else b
  | None => b
  end.

(** [String(x)]. *)
Definition String_ (x : option (Value Number)) : Completion string :=
  match x with
  | None => Normal "undefined"
  | Some v => ToString v
  end.

(** ** [useJsonDiff] *)

(** [Change[] | { error: string }]. *)
Inductive DiffResult : Type :=
| Changes (parts : list Change)
| ParseFailure (error : string).

(** The body of the memoised callback.  The test
    [beforeParsed instanceof Error || afterParsed instanceof Error] fails
    exactly when both sides are parsed values, the first case below. *)
Definition useJsonDiff (beforeText afterText : string)
  (sortKeys ignoreArrayOrder : bool) : Completion DiffResult :=
  let beforeParsed := tryParseJson (Str.trim beforeText) in
  let afterParsed := tryParseJson (Str.trim afterText) in
  match beforeParsed, afterParsed with
  | inl beforeValue, inl afterValue =>
      let beforeNorm :=
        normalizeForCompare beforeValue (mkOptions sortKeys ignoreArrayOrder) in
      let afterNorm :=
        normalizeForCompare afterValue (mkOptions sortKeys ignoreArrayOrder) in
      let beforeStr := JSON_stringify_2 beforeNorm in
      let afterStr := JSON_stringify_2 afterNorm in
      Normal (Changes (diffJson beforeStr afterStr))
  | _, _ =>
      bind (String_ (orElse (optMessage beforeParsed) (optMessage afterParsed)))
           (fun s => Normal (ParseFailure s))
  end.

(** ** [renderedLines] and [diffText] *)

(** A rendered [<span>]: its key, its class and its two text children. *)
Record Span : Type :=
  mkSpan { key : string; className : string; prefix : string; line : string }.

Definition classNameOf (part : Change) : string :=
  if added part then "add" else if removed part then "remove" else "unchanged".

Definition prefixOf (part : Change) : string :=
  if added part then "+ " else if removed part then "- " else "  ".

(** The inner loop of [renderedLines], from index [i] on. *)
Fixpoint renderLoop (part : Change) (len i : nat) (lines : list string)
  (st : list Span * nat) : list Span * nat :=
  match lines with
  | [] => st
  | l :: rest =>
      let isLastEmpty := (Nat.eqb i (len - 1) && String.eqb l EmptyString)%bool in
      if isLastEmpty then renderLoop part len (S i) rest st
      else
        let '(elements, lineKey) := st in
        renderLoop part len (S i) rest
          ((elements ++ [mkSpan ("l-" ++ Str.ofN (N.of_nat lineKey))
                               ("line " ++ classNameOf part)
                               (prefixOf part) l])%list,
           S lineKey)
  end.

Definition renderedLines (diff : DiffResult) : option (list Span) :=
  match diff with
  | Changes parts =>
      Some (fst (fold_left
                   (fun st part =>
                      let lines := Str.split Str.LF (value part) in
                      renderLoop part (List.length lines) 0 lines st)
                   parts ([], 0)))
  | ParseFailure _ => None
  end.

(** The inner loop of [diffText], from index [i] on. *)
Fixpoint textLoop (part : Change) (len i : nat) (arr : list string)
  (lines : list string) : list string :=
  match arr with
  | [] => lines
  | l :: rest =>
      let isLastEmpty := (Nat.eqb i (len - 1) && String.eqb l EmptyString)%bool in
      if isLastEmpty then textLoop part len (S i) rest lines
      else textLoop part len (S i) rest (lines ++ [prefixOf part ++ l]%string)%list
  end.

Definition diffText (diff : DiffResult) : string :=
  match diff with
  | Changes parts =>
      Str.join (Str.str1 Str.LF)
        (fold_left
           (fun lines part =>
              let arr := Str.split Str.LF (value part) in
              textLoop part (List.length arr) 0 arr lines)
           parts [])
  | ParseFailure error => "JSON parse error: " ++ error
  end.

End Application.

(** ** The component state and its actions *)

Module App.

(** The state hooks of [App]. *)
Record State : Type := mkState {
  before : string;
  after : string;
  sortKeys : bool;
  ignoreOrder : bool;
  copied : bool
}.

Definition setBefore (x : string) (s : State) : State :=
  mkState x (after s) (sortKeys s) (ignoreOrder s) (copied s).

Definition setAfter (x : string) (s : State) : State :=
  mkState (before s) x (sortKeys s) (ignoreOrder s) (copied s).

Section Actions.
Context {H : Host}.

(** [diff = useJsonDiff(before, after, sortKeys, ignoreOrder)]. *)
Definition diff (s : State) : Completion DiffResult :=
  useJsonDiff (before s) (after s) (sortKeys s) (ignoreOrder s).

(** [onFormat]: both texts are read from the state the callback closed
    over, then each setter is called for the side that parsed. *)
Definition onFormat (s : State) : State :=
  let b := tryParseJson (before s) in
  let a := tryParseJson (after s) in
  let s1 := match b with
            | inl bv => setBefore (JSON_stringify_2 bv) s
            | inr _ => s
            end in
  match a with
  | inl av => setAfter (JSON_stringify_2 av) s1
  | inr _ => s1
  end.

(** [onSwap]. *)
Definition onSwap (s : State) : State :=
  setAfter (before s) (setBefore (after s) s).

End Actions.
End App.

(* ================================================================== *)
(** * The line differencer *)

Module LineDiff.

Inductive Op : Type :=
| Keep (text : string)
| Del (text : string)
| Ins (text : string).

(** The lines of a text, each with its line break. *)
Fixpoint linesOf (s : string) : list string :=
  match s with
  | EmptyString => []
  | String c r =>
      if Ascii.eqb c Str.LF then Str.str1 c :: linesOf r
      else match linesOf r with
           | [] => [Str.str1 c]
           | l :: ls => String c l :: ls
           end
  end.

Definition cost (ops : list Op) : nat :=
  List.length (filter (fun op => match op with Keep _ => false | _ => true end) ops).

(** A shortest edit script between two line sequences: equal heads are
    kept; otherwise the cheaper of removing the old head and adding the new
    one, removal first on a tie. *)
Fixpoint script (xs : list string) : list string -> list Op :=
  fix inner (ys : list string) : list Op :=
    match xs, ys with
    | [], _ => map Ins ys
    | _ :: _, [] => map Del xs
    | x :: xs', y :: ys' =>
        if String.eqb x y then Keep x :: script xs' ys'
        else
          let d := Del x :: script xs' ys in
          let i := Ins y :: inner ys' in
          if Nat.leb (cost d) (cost i) then d else i
    end.

Definition hunkOf (op : Op) : Change :=
  match op with
  | Keep t => mkChange t false false
  | Del t => mkChange t false true
  | Ins t => mkChange t true false
  end.

Definition sameKind (a b : Change) : bool :=
  (Bool.eqb (added a) (added b) && Bool.eqb (removed a) (removed b))%bool.

(** Adjacent operations of one kind form one hunk. *)
Fixpoint coalesce (ops : list Op) : list Change :=
  match ops with
  | [] => []
  | op :: r =>
      let h := hunkOf op in
      match coalesce r with
      | h' :: hs =>
          if sameKind h h'
          then mkChange (value h ++ value h') (added h) (removed h) :: hs
          else h :: h' :: hs
      | [] => [h]
      end
  end.

(** Modelled from the spec: the Line Differencer [diffLines] (section 4.4),
    which the application takes from the [diff] package and whose code is
    not part of the repository.  The spec asks for a deterministic,
    minimal sequence of unchanged, removed and added runs of lines that
    reconstructs both texts, an unchanged run being byte-identical on both
    sides, and an empty script for two empty texts. *)
Definition diffLines (beforeCanonical afterCanonical : string) : list Change :=
  coalesce (script (linesOf beforeCanonical) (linesOf afterCanonical)).

(** The text of the hunks that make up one side. *)
Definition textOf (keep : Change -> bool) (parts : list Change) : string :=
  Str.concatAll (map value (filter keep parts)).

Definition isUnchanged (c : Change) : bool :=
  (negb (added c) && negb (removed c))%bool.

(** The hunks that reconstruct the old text, and those that reconstruct
    the new one. *)
Definition inBefore (c : Change) : bool := negb (added c).
Definition inAfter (c : Change) : bool := negb (removed c).

Definition opText (op : Op) : string :=
  match op with Keep t | Del t | Ins t => t end.

End LineDiff.

(* ================================================================== *)
(** * A concrete host *)

Module Model.

(** Numbers: a finite number is kept as the decimal [(-1)^neg * m * 10^e]
    with [m] not divisible by ten (and [e = 0] when [m = 0], the two
    zeros), which is the shortest decimal of the double for literals of up
    to 15 significant digits; the infinities are what overflowing literals
    decode to. *)
Inductive MNumber : Type :=
| MNum (neg : bool) (m : N) (e : Z)
| MInfinity (neg : bool).

(** [Number::toString], radix 10. *)
Definition MNumber_toString (x : MNumber) : string :=
  match x with
  | MInfinity neg => if neg then "-Infinity" else "Infinity"
  | MNum neg m e =>
      if (m =? 0)%N then "0"
      else
        let s := Str.ofN m in
        let k := Z.of_nat (String.length s) in
        let n := (k + e)%Z in
        let body :=
          if ((k <=? n) && (n <=? 21))%Z%bool
          then s ++ Str.repeat0 (Z.to_nat (n - k))
          else if ((0 <? n) && (n <=? 21))%Z%bool
          then substring 0 (Z.to_nat n) s ++ "."
                 ++ substring (Z.to_nat n) (Z.to_nat (k - n)) s
          else if ((-6 <? n) && (n <=? 0))%Z%bool
          then "0." ++ Str.repeat0 (Z.to_nat (- n)) ++ s
          else
            let mant :=
              if (k =? 1)%Z then s
              else substring 0 1 s ++ "." ++ substring 1 (Z.to_nat (k - 1)) s in
            mant ++ "e" ++ (if (n - 1 <? 0)%Z then "-" else "+")
                 ++ Str.ofN (Z.abs_N (n - 1))
        in (if neg then "-" else EmptyString) ++ body
  end.

Definition MNumber_isFinite (x : MNumber) : bool :=
  match x with MNum _ _ _ => true | MInfinity _ => false end.

Definition MNumber_toBoolean (x : MNumber) : bool :=
  match x with MNum _ m _ => negb (m =? 0)%N | MInfinity _ => true end.

Fixpoint stripZeros (fuel : nat) (m : N) (e : Z) : N * Z :=
  match fuel with
  | O => (m, e)
  | S f =>
      if (m =? 0)%N then (0%N, 0%Z)
      else if (m mod 10 =? 0)%N then stripZeros f (m / 10)%N (e + 1)%Z
      else (m, e)
  end.

(** The number a decimal literal [m0 * 10^e0] decodes to: literals that
    round beyond the largest double give an infinity, literals that round
    below the smallest give a zero. *)
Definition ofDecimal (neg : bool) (m0 : N) (e0 : Z) : MNumber :=
  let '(m, e) := stripZeros (String.length (Str.ofN m0)) m0 e0 in
  if (m =? 0)%N then MNum neg 0 0
  else
    let k := Z.of_nat (String.length (Str.ofN m)) in
    if (k + e >? 400)%Z then MInfinity neg
    else if (k + e <? -400)%Z then MNum neg 0 0
    else if (0 <=? e)%Z then
      if (Z.of_N m * 10 ^ e >=? 2 ^ 1024 - 2 ^ 970)%Z
      then MInfinity neg else MNum neg m e
    else if (Z.of_N m >=? (2 ^ 1024 - 2 ^ 970) * 10 ^ (- e))%Z then MInfinity neg
    else if (Z.of_N m * 2 ^ 1075 <=? 10 ^ (- e))%Z then MNum neg 0 0
    else MNum neg m e.

(** Comparison of strings by code units. *)
Definition codeUnitCompare (a b : string) : Z :=
  match String.compare a b with
  | Lt => (-1)%Z
  | Eq => 0%Z
  | Gt => 1%Z
  end.

(** ** The decoder *)

Inductive PResult (A : Type) : Type :=
| POk (a : A) (rest : string)
| PErr (at_ : string).
Arguments POk {A} a rest.
Arguments PErr {A} at_.

Definition isDigit (c : ascii) : bool :=
  let n := nat_of_ascii c in (Nat.leb 48 n && Nat.leb n 57)%bool.

Definition isJsonSpace (c : ascii) : bool :=
  let n := nat_of_ascii c in
  (Nat.eqb n 32 || Nat.eqb n 9 || Nat.eqb n 10 || Nat.eqb n 13)%bool.

Fixpoint skipWs (s : string) : string :=
  match s with
  | EmptyString => EmptyString
  | String c r => if isJsonSpace c then skipWs r else s
  end.

Fixpoint takeDigits (s : string) : string * string :=
  match s with
  | EmptyString => (EmptyString, EmptyString)
  | String c r =>
      if isDigit c then let '(d, rest) := takeDigits r in (String c d, rest)
      else (EmptyString, s)
  end.

Fixpoint digitsToN (acc : N) (s : string) : N :=
  match s with
  | EmptyString => acc
  | String c r => digitsToN (acc * 10 + N.of_nat (nat_of_ascii c - 48))%N r
  end.

Definition hexValue (c : ascii) : option nat :=
  let n := nat_of_ascii c in
  if (Nat.leb 48 n && Nat.leb n 57)%bool then Some (n - 48)
  else if (Nat.leb 97 n && Nat.leb n 102)%bool then Some (n - 87)
  else if (Nat.leb 65 n && Nat.leb n 70)%bool then Some (n - 55)
  else None.

Definition simpleEscape (c : ascii) : option ascii :=
  let n := nat_of_ascii c in
  if Nat.eqb n 34 then Some Str.QUOTE
  else if Nat.eqb n 92 then Some Str.BACKSLASH
  else if Nat.eqb n 47 then Some "/"%char
  else if Nat.eqb n 98 then Some "008"%char
  else if Nat.eqb n 102 then Some "012"%char
  else if Nat.eqb n 110 then Some "010"%char
  else if Nat.eqb n 114 then Some "013"%char
  else if Nat.eqb n 116 then Some "009"%char
  else None.

Definition consChar (c : ascii) (r : PResult string) : PResult string :=
  match r with
  | POk s rest => POk (String c s) rest
  | PErr a => PErr a
  end.

(** A string literal after its opening quote.  An escape above [u00FF]
    names a code unit outside the alphabet of the model; this host does not
    accept it. *)
Fixpoint parseStringBody (s : string) : PResult string :=
  match s with
  | EmptyString => PErr EmptyString
  | String c r =>
      if Ascii.eqb c Str.QUOTE then POk EmptyString r
      else if Ascii.eqb c Str.BACKSLASH then
        match r with
        | EmptyString => PErr EmptyString
        | String x r1 =>
            match simpleEscape x with
            | Some ch => consChar ch (parseStringBody r1)
            | None =>
                if Ascii.eqb x "u" then
                  match r1 with
                  | String h1 (String h2 (String h3 (String h4 r2))) =>
                      match hexValue h1, hexValue h2, hexValue h3, hexValue h4 with
                      | Some 0, Some 0, Some c, Some d =>
                          consChar (ascii_of_nat (16 * c + d)) (parseStringBody r2)
                      | _, _, _, _ => PErr r1
                      end
                  | _ => PErr r1
                  end
                else PErr r
            end
        end
      else if Nat.ltb (nat_of_ascii c) 32 then PErr s
      else consChar c (parseStringBody r)
  end.

(** A number literal; [s] starts at its sign or first digit. *)
Definition parseNumber (s : string) : PResult MNumber :=
  let '(neg, s1) :=
    match s with
    | String "-" r => (true, r)
    | _ => (false, s)
    end in
  let '(ip, s2) :=
    match s1 with
    | String "0" r => ("0", r)
    | _ => takeDigits s1
    end in
  if String.eqb ip EmptyString then PErr s1
  else
    let frac :=
      match s2 with
      | String "." r =>
          let '(fp, s3) := takeDigits r in
          if String.eqb fp EmptyString then PErr r else POk fp s3
      | _ => POk EmptyString s2
      end in
    match frac with
    | PErr a => PErr a
    | POk fp s3 =>
        let expo :=
          match s3 with
          | String c r =>
              if (Ascii.eqb c "e" || Ascii.eqb c "E")%bool then
                let '(eneg, r1) :=
                  match r with
                  | String "-" r' => (true, r')
                  | String "+" r' => (false, r')
                  | _ => (false, r)
                  end in
                let '(ed, s4) := takeDigits r1 in
                if String.eqb ed EmptyString then PErr r1
                else POk (if eneg then (- Z.of_N (digitsToN 0 ed))%Z
                          else Z.of_N (digitsToN 0 ed)) s4
              else POk 0%Z s3
          | EmptyString => POk 0%Z s3
          end in
        match expo with
        | PErr a => PErr a
        | POk ex s4 =>
            POk (ofDecimal neg (digitsToN 0 (ip ++ fp))
                   (ex - Z.of_nat (String.length fp))%Z) s4
        end
    end.

Definition expect (word : string) (v : Value MNumber) (s : string)
  : PResult (Value MNumber) :=
  if String.prefix word s
  then POk v (substring (String.length word)
                (String.length s - String.length word) s)
  else PErr s.

Fixpoint parseValue (fuel : nat) (s : string) : PResult (Value MNumber) :=
  match fuel with
  | O => PErr s
  | S f =>
      match skipWs s with
      | EmptyString => PErr EmptyString
      | String c r as s0 =>
          if Ascii.eqb c "[" then
            match skipWs r with
            | String "]" r' => POk (JArray []) r'
            | r' => parseElements f r' []
            end
          else if Ascii.eqb c "{" then
            match skipWs r with
            | String "}" r' => POk (JObject []) r'
            | r' => parseMembers f r' []
            end
          else if Ascii.eqb c Str.QUOTE then
            match parseStringBody r with
            | POk str rest => POk (JString str) rest
            | PErr a => PErr a
            end
          else if (Ascii.eqb c "-" || isDigit c)%bool then
            match parseNumber s0 with
            | POk n rest => POk (JNumber n) rest
            | PErr a => PErr a
            end
          else if Ascii.eqb c "t" then expect "true" (JBool true) s0
          else if Ascii.eqb c "f" then expect "false" (JBool false) s0
          else if Ascii.eqb c "n" then expect "null" JNull s0
          else PErr s0
      end
  end
with parseElements (fuel : nat) (s : string) (acc : list (Value MNumber))
  : PResult (Value MNumber) :=
  match fuel with
  | O => PErr s
  | S f =>
      match parseValue f s with
      | PErr a => PErr a
      | POk v rest =>
          match skipWs rest with
          | String "," r => parseElements f r (acc ++ [v])%list
          | String "]" r => POk (JArray (acc ++ [v])%list) r
          | r => PErr r
          end
      end
  end
with parseMembers (fuel : nat) (s : string) (acc : list (string * Value MNumber))
  : PResult (Value MNumber) :=
  match fuel with
  | O => PErr s
  | S f =>
      match skipWs s with
      | String c r as s0 =>
          if Ascii.eqb c Str.QUOTE then
            match parseStringBody r with
            | PErr a => PErr a
            | POk k rest =>
                match skipWs rest with
                | String ":" r1 =>
                    match parseValue f r1 with
                    | PErr a => PErr a
                    | POk v rest1 =>
                        let acc' := Obj.CreateDataProperty acc k v in
                        match skipWs rest1 with
                        | String "," r2 => parseMembers f r2 acc'
                        | String "}" r2 => POk (JObject acc') r2
                        | r2 => PErr r2
                        end
                    end
                | r1 => PErr r1
                end
            end
          else PErr s0
      | EmptyString => PErr EmptyString
      end
  end.

Definition syntaxError (text at_ : string) : Error :=
  mkError "SyntaxError"
    match at_ with
    | EmptyString => "Unexpected end of JSON input"
    | String c _ =>
        "Unexpected token " ++ Str.str1 c ++ " in JSON at position "
          ++ Str.ofN (N.of_nat (String.length text - String.length at_))
    end.

(** [JSON.parse(text)]. *)
Definition parse (text : string) : Completion (Value MNumber) :=
  match parseValue (2 * String.length text + 2) text with
  | PErr a => Throw (syntaxError text a)
  | POk v rest =>
      match skipWs rest with
      | EmptyString => Normal v
      | a => Throw (syntaxError text a)
      end
  end.

End Model.

(** The concrete host: decimal numbers, code-unit collation, the decoder
    above and the line differencer of [LineDiff]. *)
Definition ModelHost : Host := {|
  Number := Model.MNumber;
  Number_toString := Model.MNumber_toString;
  Number_isFinite := Model.MNumber_isFinite;
  Number_toBoolean := Model.MNumber_toBoolean;
  localeCompare := Model.codeUnitCompare;
  JSON_parse := Model.parse;
  diffJson := LineDiff.diffLines
|}.

(* ================================================================== *)
(** * Sample inputs *)

Module Examples.

Definition quoted (s : string) : string :=
  String Str.QUOTE (s ++ Str.str1 Str.QUOTE).

(** [{"a":1}] *)
Definition text_a1 : string := "{" ++ quoted "a" ++ ":1}".

(** [not json] *)
Definition text_not_json : string := "not json".

(** [{"message":"hi"}] *)
Definition text_message_hi : string :=
  "{" ++ quoted "message" ++ ":" ++ quoted "hi" ++ "}".

(** [{"message":{"toString":0}}] *)
Definition text_message_unprintable : string :=
  "{" ++ quoted "message" ++ ":{" ++ quoted "toString" ++ ":0}}".

(** [{"10":1,"9":2}] *)
Definition text_keys_10_9 : string :=
  "{" ++ quoted "10" ++ ":1," ++ quoted "9" ++ ":2}".

Definition num (z : Z) : Value Model.MNumber :=
  JNumber (Model.ofDecimal (z <? 0)%Z (Z.abs_N z) 0).

(** The value of [{"10":1,"9":2}]: the index keys enumerate in numeric
    order. *)
Definition value_keys_10_9 : Value Model.MNumber :=
  JObject [("9", num 2); ("10", num 1)].

(** The value of [[[1],[1,2]]]. *)
Definition value_nested_arrays : Value Model.MNumber :=
  JArray [JArray [num 1]; JArray [num 1; num 2]].

(** The values of [[null,1e999]] and of [[1e999,null]]. *)
Definition value_null_inf : Value Model.MNumber :=
  JArray [JNull; JNumber (Model.MInfinity false)].
Definition value_inf_null : Value Model.MNumber :=
  JArray [JNumber (Model.MInfinity false); JNull].

(** [[2,1]] and [[1,2]]. *)
Definition value_2_1 : Value Model.MNumber := JArray [num 2; num 1].
Definition value_1_2 : Value Model.MNumber := JArray [num 1; num 2].

(** [[null,1e999]] *)
Definition text_null_inf : string := "[null,1e999]".

(** The value of [{"b":[3,1,2],"10":1,"9":2,"a":{"z":1,"y":[2,1]}}]. *)
Definition value_mixed : Value Model.MNumber :=
  JObject [("9", num 2); ("10", num 1);
           ("b", JArray [num 3; num 1; num 2]);
           ("a", JObject [("z", num 1); ("y", JArray [num 2; num 1])])].

Definition sampleState : App.State :=
  App.mkState text_a1 text_not_json true false false.

End Examples.

(* ================================================================== *)
(** * What the two formatters compute *)

Module Format.

(** The fragments of a split that become lines: all of them, except an
    empty last one. *)
Fixpoint keptLines (l : list string) : list string :=
  match l with
  | [] => []
  | x :: r =>
      match r with
      | [] => if String.eqb x EmptyString then [] else [x]
      | _ :: _ => x :: keptLines r
      end
  end.

(** The lines of one part. *)
Definition linesOfPart (part : Change) : list string :=
  keptLines (Str.split Str.LF (value part)).

Definition textOfSpan (sp : Span) : string := (prefix sp ++ line sp)%string.

(** The spans one part contributes, keyed from [k] on. *)
Fixpoint spansFrom (part : Change) (k : nat) (ls : list string) : list Span :=
  match ls with
  | [] => []
  | l :: r =>
      mkSpan ("l-" ++ Str.ofN (N.of_nat k)) ("line " ++ classNameOf part)
             (prefixOf part) l :: spansFrom part (S k) r
  end.

End Format.


(* ================================================================== *)
(** * Further notions used to state properties of the code *)

(** Texts made of white space only. *)
Fixpoint allWhiteSpace (s : string) : bool :=
  match s with
  | EmptyString => true
  | String c r => (Str.isWhiteSpace c && allWhiteSpace r)%bool
  end.

Section Notions.
Context {H : Host}.

(** A side of [useJsonDiff] on which the read [?.message] gives
    [undefined] or an error's own message: an [Error], or a parsed value
    that is not an object with an own property [message]. *)
Definition noOwnMessage (p : Value Number + Error) : bool :=
  match p with
  | inl (JObject props) => negb (Obj.hasOwn "message" props)
  | _ => true
  end.

#[local] Unset Elimination Schemes.
(** Values as the host builds them: in every object the keys are pairwise
    distinct and in enumeration order. *)
Inductive Enumerated : Value Number -> Prop :=
| En_null : Enumerated JNull
| En_bool (b : bool) : Enumerated (JBool b)
| En_number (n : Number) : Enumerated (JNumber n)
| En_string (s : string) : Enumerated (JString s)
| En_array (elems : list (Value Number)) :
    Forall Enumerated elems -> Enumerated (JArray elems)
| En_object (props : list (string * Value Number)) :
    NoDup (map fst props) ->
    StronglySorted (cmpLe Obj.enumCompare) props ->
    Forall (fun kv => Enumerated (snd kv)) props ->
    Enumerated (JObject props).

(** Every array, at any depth, is in ascending order of the comparison
    [deep] sorts with. *)
Inductive SortedArrays : Value Number -> Prop :=
| SA_null : SortedArrays JNull
| SA_bool (b : bool) : SortedArrays (JBool b)
| SA_number (n : Number) : SortedArrays (JNumber n)
| SA_string (s : string) : SortedArrays (JString s)
| SA_array (elems : list (Value Number)) :
    Forall SortedArrays elems ->
    StronglySorted (cmpLe compareSerialized) elems ->
    SortedArrays (JArray elems)
| SA_object (props : list (string * Value Number)) :
    Forall (fun kv => SortedArrays (snd kv)) props ->
    SortedArrays (JObject props).
#[local] Set Elimination Schemes.

End Notions.

(** The keys [renderedLines] gives to [n] spans, counting from [k]. *)
Definition keysFrom (k n : nat) : list string :=
  map (fun i => "l-" ++ Str.ofN (N.of_nat i)) (seq k n).

(** ** [vite.config.ts] *)

Module Vite.

(** [process.env]: a variable is a string or is not set. *)
Definition Env : Type := string -> option string.

(** Truthiness of [process.env.X]: set, and not the empty string. *)
Definition truthy (v : option string) : bool :=
  match v with
  | Some s => negb (String.eqb s EmptyString)
  | None => false
  end.

(** [process.env.VITE_BASE || '/']. *)
Definition repoBase (env : Env) : string :=
  if truthy (env "VITE_BASE")
  then match env "VITE_BASE" with Some s => s | None => "/" end
  else "/".

(** The [base] option: [process.env.CI ? repoBase : '/']. *)
Definition base (env : Env) : string :=
  if truthy (env "CI") then repoBase env else "/".

(** A sample environment of a CI run. *)
Definition ciEnv : Env :=
  fun x => if String.eqb x "CI" then Some "true"
           else if String.eqb x "VITE_BASE" then Some "/json-diff-viewer/"
           else None.

End Vite.

Module MoreExamples.

(** A state whose two texts parse: [{"a":1}] and [[2, 1]]. *)
Definition parsedState : App.State :=
  App.mkState Examples.text_a1 "[2, 1]" true false false.

(** The values of [{"b":1,"a":2}] and of [{"a":2,"b":1}]. *)
Definition value_b_a : Value Model.MNumber :=
  JObject [("b", Examples.num 1); ("a", Examples.num 2)].
Definition value_a_b : Value Model.MNumber :=
  JObject [("a", Examples.num 2); ("b", Examples.num 1)].

End MoreExamples.
(* ================================================================== *)
(** * Sorting with a consistent comparison *)

Section SortFacts.
Context {A : Type}.
Variable cmp : A -> A -> Z.

Lemma sort_insert_perm (x : A) (l : list A) :
  Permutation (sort_insert cmp x l) (x :: l).
Proof.
  induction l as [| y r IH]; simpl; [reflexivity |].
  destruct (cmp x y <=? 0)%Z; [reflexivity |].
  rewrite IH. apply perm_swap.
Qed.

Lemma Array_sort_perm (l : list A) : Permutation (Array_sort cmp l) l.
Proof.
  induction l as [| x r IH]; simpl; [reflexivity |].
  rewrite sort_insert_perm. now constructor.
Qed.

Lemma sort_insert_le_all (x : A) (l : list A) :
  Forall (cmpLe cmp x) l -> sort_insert cmp x l = x :: l.
Proof.
  destruct l as [| y r]; [reflexivity |].
  intros Hall. inversion Hall as [| ? ? Hxy _]; subst.
  simpl. unfold cmpLe in Hxy.
  now rewrite (proj2 (Z.leb_le _ _) Hxy).
Qed.

Hypothesis cmp_total : forall a b, cmpLe cmp a b \/ cmpLe cmp b a.
Hypothesis cmp_trans : forall a b c, cmpLe cmp a b -> cmpLe cmp b c -> cmpLe cmp a c.

Lemma sort_insert_sorted (x : A) (l : list A) :
  StronglySorted (cmpLe cmp) l -> StronglySorted (cmpLe cmp) (sort_insert cmp x l).
Proof.
  induction l as [| y r IH]; intros Hs; simpl.
  - repeat constructor.
  - inversion Hs as [| ? ? Hr Hy]; subst.
    destruct (cmp x y <=? 0)%Z eqn:Hxy.
    + apply Z.leb_le in Hxy. constructor; [exact Hs |].
      constructor; [exact Hxy |].
      eapply Forall_impl; [| exact Hy].
      intros z Hz. eapply cmp_trans; eassumption.
    + apply Z.leb_gt in Hxy.
      assert (Hyx : cmpLe cmp y x).
      { destruct (cmp_total x y) as [Hc | Hc]; [unfold cmpLe in Hc; lia | exact Hc]. }
      constructor; [now apply IH |].
      eapply Permutation_Forall; [symmetry; apply sort_insert_perm |].
      now constructor.
Qed.

Lemma Array_sort_sorted (l : list A) : StronglySorted (cmpLe cmp) (Array_sort cmp l).
Proof.
  induction l as [| x r IH]; simpl; [constructor | now apply sort_insert_sorted].
Qed.

(** A sorted list is left as it is. *)
Lemma Array_sort_id (l : list A) :
  StronglySorted (cmpLe cmp) l -> Array_sort cmp l = l.
Proof.
  induction l as [| x r IH]; intros Hs; [reflexivity |].
  inversion Hs as [| ? ? Hr Hx]; subst.
  simpl. rewrite IH by exact Hr. now apply sort_insert_le_all.
Qed.

Lemma Array_sort_idempotent (l : list A) :
  Array_sort cmp (Array_sort cmp l) = Array_sort cmp l.
Proof. apply Array_sort_id, Array_sort_sorted. Qed.

Lemma filter_sorted (p : A -> bool) (l : list A) :
  StronglySorted (cmpLe cmp) l -> StronglySorted (cmpLe cmp) (filter p l).
Proof.
  induction 1 as [| x r Hr IH Hx]; simpl; [constructor |].
  destruct (p x); [| exact IH].
  constructor; [exact IH |].
  apply Forall_forall. intros z Hz. apply filter_In in Hz.
  rewrite Forall_forall in Hx. now apply Hx.
Qed.

Lemma filter_sort_insert (p : A -> bool) (x : A) (l : list A) :
  StronglySorted (cmpLe cmp) l ->
  filter p (sort_insert cmp x l) =
  if p x then sort_insert cmp x (filter p l) else filter p l.
Proof.
  induction l as [| y r IH]; intros Hs.
  - simpl. destruct (p x); reflexivity.
  - inversion Hs as [| ? ? Hr Hy]; subst.
    cbn [sort_insert]. destruct (cmp x y <=? 0)%Z eqn:Hxy.
    + cbn [filter]. destruct (p x) eqn:Hpx; [| reflexivity].
      symmetry. apply sort_insert_le_all.
      apply Z.leb_le in Hxy.
      assert (Hall : Forall (cmpLe cmp x) (y :: r)).
      { constructor; [exact Hxy |].
        eapply Forall_impl; [| exact Hy].
        intros z Hz. eapply cmp_trans; eassumption. }
      apply Forall_forall. intros z Hz.
      rewrite Forall_forall in Hall. apply Hall.
      change (In z (filter p (y :: r))) in Hz.
      apply filter_In in Hz. tauto.
    + cbn [filter]. rewrite IH by exact Hr.
      destruct (p x), (p y); cbn [sort_insert]; try rewrite Hxy; reflexivity.
Qed.

(** Sorting is stable: it commutes with every selection. *)
Lemma filter_Array_sort (p : A -> bool) (l : list A) :
  filter p (Array_sort cmp l) = Array_sort cmp (filter p l).
Proof.
  induction l as [| x r IH]; [reflexivity |].
  cbn [Array_sort filter].
  rewrite filter_sort_insert by apply Array_sort_sorted.
  rewrite IH. destruct (p x); reflexivity.
Qed.

(** Elements that compare equal to one another keep their order. *)
Lemma Array_sort_stable (p : A -> bool) (l : list A) :
  (forall a b, In a l -> In b l -> p a = true -> p b = true -> cmpLe cmp a b) ->
  filter p (Array_sort cmp l) = filter p l.
Proof.
  intros Hties. rewrite filter_Array_sort. apply Array_sort_id.
  assert (Hall : forall a b, In a (filter p l) -> In b (filter p l) -> cmpLe cmp a b).
  { intros a b Ha Hb. apply filter_In in Ha, Hb. apply Hties; tauto. }
  clear Hties. induction (filter p l) as [| x r IH]; constructor.
  - apply IH. intros a b Ha Hb. apply Hall; now right.
  - apply Forall_forall. intros z Hz. apply Hall; [now left | now right].
Qed.

(** Two sorted arrangements of the same elements are equal when no two
    distinct elements compare equal. *)
Lemma sorted_perm_unique (l1 l2 : list A) :
  StronglySorted (cmpLe cmp) l1 -> StronglySorted (cmpLe cmp) l2 ->
  Permutation l1 l2 ->
  (forall a b, In a l1 -> In b l1 -> cmpLe cmp a b -> cmpLe cmp b a -> a = b) ->
  l1 = l2.
Proof.
  revert l2. induction l1 as [| a r1 IH]; intros l2 Hs1 Hs2 Hp Hanti.
  - apply Permutation_nil in Hp. now subst.
  - destruct l2 as [| b r2].
    + symmetry in Hp. apply Permutation_nil in Hp. discriminate.
    + inversion Hs1 as [| ? ? Hr1 Ha]; subst.
      inversion Hs2 as [| ? ? Hr2 Hb]; subst.
      assert (Hab : a = b).
      { assert (Hina : In a (b :: r2))
          by (eapply Permutation_in; [exact Hp | now left]).
        assert (Hinb : In b (a :: r1))
          by (eapply Permutation_in; [symmetry; exact Hp | now left]).
        destruct Hina as [Heq | Hina]; [now symmetry |].
        destruct Hinb as [Heq | Hinb]; [exact Heq |].
        rewrite Forall_forall in Ha, Hb.
        apply Hanti; [now left | now right | now apply Ha | now apply Hb]. }
      subst b. f_equal.
      apply IH; [exact Hr1 | exact Hr2 | eapply Permutation_cons_inv; exact Hp |].
      intros x y Hx Hy. apply Hanti; now right.
Qed.

Lemma Array_sort_perm_unique (l1 l2 : list A) :
  Permutation l1 l2 ->
  (forall a b, In a l1 -> In b l1 -> cmpLe cmp a b -> cmpLe cmp b a -> a = b) ->
  Array_sort cmp l1 = Array_sort cmp l2.
Proof.
  intros Hp Hanti.
  apply sorted_perm_unique; try apply Array_sort_sorted.
  - now rewrite !Array_sort_perm.
  - intros a b Ha Hb. apply Hanti.
    + eapply Permutation_in; [apply Array_sort_perm | exact Ha].
    + eapply Permutation_in; [apply Array_sort_perm | exact Hb].
Qed.

End SortFacts.

(* ================================================================== *)
(** * Plain objects: creation of properties and enumeration order *)

Section ObjFacts.
Context {V : Type}.
Import Obj.

Local Abbreviation enumLe := (cmpLe (@enumCompare V)).

Lemma arrayIndex_inj (k1 k2 : string) (n : N) :
  arrayIndex k1 = Some n -> arrayIndex k2 = Some n -> k1 = k2.
Proof.
  unfold arrayIndex. intros H1 H2.
  destruct (NilEmpty.uint_of_string k1) as [u1 |]; [| discriminate].
  destruct (NilEmpty.uint_of_string k2) as [u2 |]; [| discriminate].
  destruct (String.eqb (Str.ofN (N.of_uint u1)) k1) eqn:E1; [| discriminate].
  destruct (String.eqb (Str.ofN (N.of_uint u2)) k2) eqn:E2; [| discriminate].
  apply String.eqb_eq in E1, E2.
  destruct (N.of_uint u1 <? 4294967295)%N; [| discriminate].
  destruct (N.of_uint u2 <? 4294967295)%N; [| discriminate].
  simpl in H1, H2. congruence.
Qed.

Lemma enumLe_trans (a b c : string * V) : enumLe a b -> enumLe b c -> enumLe a c.
Proof.
  unfold cmpLe, enumCompare.
  destruct (arrayIndex (fst a)), (arrayIndex (fst b)), (arrayIndex (fst c)); lia.
Qed.

Lemma enumLe_total (a b : string * V) : enumLe a b \/ enumLe b a.
Proof.
  unfold cmpLe, enumCompare.
  destruct (arrayIndex (fst a)), (arrayIndex (fst b)); lia.
Qed.

Lemma enumLe_other (a b : string * V) : isIndex (fst b) = false -> enumLe a b.
Proof.
  unfold cmpLe, enumCompare, isIndex.
  destruct (arrayIndex (fst a)), (arrayIndex (fst b)); intros; try discriminate; lia.
Qed.

Lemma enumLe_from_other (a b : string * V) :
  isIndex (fst a) = false -> enumLe a b -> isIndex (fst b) = false.
Proof.
  unfold cmpLe, enumCompare, isIndex.
  destruct (arrayIndex (fst a)), (arrayIndex (fst b)); intros; try discriminate;
    try reflexivity; lia.
Qed.

Lemma hasOwn_false (k : string) (props : list (string * V)) :
  hasOwn k props = false <-> ~ In k (map fst props).
Proof.
  unfold hasOwn. induction props as [| [k' v'] r IH]; simpl.
  - tauto.
  - rewrite orb_false_iff, IH. split.
    + intros [Hk Hr] [Heq | Hin]; [| tauto].
      subst. now rewrite String.eqb_refl in Hk.
    + intros Hn. split; [| tauto].
      apply String.eqb_neq. intros ->. tauto.
Qed.

Lemma insertIndex_perm (n : N) (k : string) (v : V) (props : list (string * V)) :
  Permutation (insertIndex n k v props) ((k, v) :: props).
Proof.
  induction props as [| [k' v'] r IH]; simpl; [reflexivity |].
  destruct (arrayIndex k') as [n' |]; [| reflexivity].
  destruct (n <? n')%N; [reflexivity |].
  rewrite IH. apply perm_swap.
Qed.

Lemma insertIndex_sorted (n : N) (k : string) (v : V) (props : list (string * V)) :
  arrayIndex k = Some n ->
  StronglySorted enumLe props ->
  StronglySorted enumLe (insertIndex n k v props).
Proof.
  intros Hk. induction props as [| [k' v'] r IH]; intros Hs; simpl.
  - repeat constructor.
  - inversion Hs as [| ? ? Hr Hall]; subst.
    assert (Hhead : enumLe (k, v) (k', v') ->
                    StronglySorted enumLe ((k, v) :: (k', v') :: r)).
    { intros Hle. constructor; [exact Hs |].
      constructor; [exact Hle |].
      eapply Forall_impl; [| exact Hall].
      intros z Hz. eapply enumLe_trans; eassumption. }
    destruct (arrayIndex k') as [n' |] eqn:Hk'.
    + destruct (n <? n')%N eqn:Hlt.
      * apply Hhead. unfold cmpLe, enumCompare. cbn [fst]. rewrite Hk, Hk'.
        apply N.ltb_lt in Hlt. lia.
      * constructor; [now apply IH |].
        eapply Permutation_Forall; [symmetry; apply insertIndex_perm |].
        constructor; [| exact Hall].
        unfold cmpLe, enumCompare. cbn [fst]. rewrite Hk, Hk'.
        apply N.ltb_ge in Hlt. lia.
    + apply Hhead. apply enumLe_other. cbn [fst]. unfold isIndex. now rewrite Hk'.
Qed.

Lemma otherEntries_cons (kv : string * V) (l : list (string * V)) :
  otherEntries (kv :: l) =
  if isIndex (fst kv) then otherEntries l else kv :: otherEntries l.
Proof.
  unfold otherEntries. cbn [filter]. now destruct (isIndex (fst kv)).
Qed.

Lemma insertIndex_others (n : N) (k : string) (v : V) (props : list (string * V)) :
  arrayIndex k = Some n ->
  otherEntries (insertIndex n k v props) = otherEntries props.
Proof.
  intros Hk.
  assert (Hik : isIndex k = true) by (unfold isIndex; now rewrite Hk).
  induction props as [| [k' v'] r IH]; cbn [insertIndex].
  - rewrite otherEntries_cons. cbn [fst]. now rewrite Hik.
  - destruct (arrayIndex k') as [n' |] eqn:Hk'.
    + destruct (n <? n')%N.
      * rewrite otherEntries_cons. cbn [fst]. now rewrite Hik.
      * rewrite !(otherEntries_cons (k', v')). cbn [fst].
        now rewrite IH.
    + rewrite otherEntries_cons. cbn [fst]. now rewrite Hik.
Qed.

Lemma sorted_snoc (x : string * V) (l : list (string * V)) :
  StronglySorted enumLe l -> Forall (fun y => enumLe y x) l ->
  StronglySorted enumLe (l ++ [x]).
Proof.
  induction 1 as [| y r Hr IH Hy]; intros Hall; simpl.
  - repeat constructor.
  - inversion Hall; subst. constructor; [now apply IH |].
    apply Forall_app. split; [exact Hy | now repeat constructor].
Qed.

(** Creating a property under a new key. *)
Lemma CreateDataProperty_fresh (props : list (string * V)) (k : string) (v : V) :
  ~ In k (map fst props) ->
  StronglySorted enumLe props ->
  Permutation (CreateDataProperty props k v) (props ++ [(k, v)]) /\
  StronglySorted enumLe (CreateDataProperty props k v) /\
  otherEntries (CreateDataProperty props k v)
    = (otherEntries props ++ otherEntries [(k, v)])%list.
Proof.
  intros Hfresh Hs. unfold CreateDataProperty.
  rewrite (proj2 (hasOwn_false k props) Hfresh).
  destruct (arrayIndex k) as [n |] eqn:Hk.
  - split; [| split].
    + rewrite insertIndex_perm. apply Permutation_cons_append.
    + now apply insertIndex_sorted.
    + rewrite insertIndex_others by exact Hk.
      rewrite (otherEntries_cons (k, v) []). cbn [fst]. unfold isIndex at 1.
      rewrite Hk. now rewrite app_nil_r.
  - split; [reflexivity | split].
    + apply sorted_snoc; [exact Hs |].
      apply Forall_forall. intros y _. apply enumLe_other.
      cbn [fst]. unfold isIndex. now rewrite Hk.
    + unfold otherEntries. now rewrite filter_app.
Qed.

Lemma fromEntries_fold (entries : list (string * V)) :
  forall acc,
    NoDup (map fst (acc ++ entries)) ->
    StronglySorted enumLe acc ->
    let o := fold_left (fun o kv => CreateDataProperty o (fst kv) (snd kv))
                       entries acc in
    Permutation o (acc ++ entries) /\
    StronglySorted enumLe o /\
    otherEntries o = (otherEntries acc ++ otherEntries entries)%list.
Proof.
  induction entries as [| [k v] r IH]; intros acc Hnd Hs; cbn [fold_left].
  - rewrite app_nil_r. unfold otherEntries at 3. cbn [filter].
    rewrite app_nil_r. repeat split; [reflexivity | exact Hs].
  - cbn [fst snd].
    assert (Hfresh : ~ In k (map fst acc)).
    { rewrite map_app in Hnd. cbn [map fst] in Hnd.
      apply NoDup_remove_2 in Hnd. intros Hin. apply Hnd.
      apply in_or_app. now left. }
    destruct (CreateDataProperty_fresh acc k v Hfresh Hs) as [Hp [Hs' Ho]].
    assert (Hnd' : NoDup (map fst (CreateDataProperty acc k v ++ r))).
    { eapply Permutation_NoDup; [| exact Hnd].
      apply Permutation_map. rewrite Hp, <- app_assoc. reflexivity. }
    destruct (IH _ Hnd' Hs') as [Hp2 [Hs2 Ho2]].
    split; [| split].
    + rewrite Hp2, Hp, <- app_assoc. reflexivity.
    + exact Hs2.
    + rewrite Ho2, Ho, <- app_assoc. f_equal.
      change ((k, v) :: r) with ([(k, v)] ++ r)%list.
      unfold otherEntries. now rewrite filter_app.
Qed.

(** [Object.fromEntries] on entries with distinct keys: the same entries,
    in enumeration order, the keys that are not indices in the order of the
    entries. *)
Lemma Object_fromEntries_spec (entries : list (string * V)) :
  NoDup (map fst entries) ->
  Permutation (Object_fromEntries entries) entries /\
  StronglySorted enumLe (Object_fromEntries entries) /\
  otherEntries (Object_fromEntries entries) = otherEntries entries.
Proof.
  intros Hnd. apply (fromEntries_fold entries []); [exact Hnd | constructor].
Qed.

Lemma entry_of_key (l : list (string * V)) (a b : string * V) :
  NoDup (map fst l) -> In a l -> In b l -> fst a = fst b -> a = b.
Proof.
  induction l as [| x r IH]; intros Hnd Ha Hb Hk; [contradiction |].
  cbn [map] in Hnd. inversion Hnd as [| ? ? Hx Hr]; subst.
  destruct Ha as [-> | Ha], Hb as [-> | Hb].
  - reflexivity.
  - exfalso. apply Hx. rewrite Hk. now apply in_map.
  - exfalso. apply Hx. rewrite <- Hk. now apply in_map.
  - now apply IH.
Qed.

Lemma sorted_others_only (a : string * V) (r : list (string * V)) :
  isIndex (fst a) = false ->
  StronglySorted enumLe (a :: r) ->
  otherEntries (a :: r) = a :: r.
Proof.
  intros Ha Hs. inversion Hs as [| ? ? _ Hall]; subst.
  rewrite otherEntries_cons, Ha. f_equal.
  apply forallb_filter_id. apply forallb_forall. intros z Hz.
  rewrite Forall_forall in Hall.
  now rewrite (enumLe_from_other a z Ha (Hall z Hz)).
Qed.

(** The properties of an object are determined by its entries and by the
    order of its keys that are not indices. *)
Lemma enumeration_unique (l1 l2 : list (string * V)) :
  StronglySorted enumLe l1 -> StronglySorted enumLe l2 ->
  NoDup (map fst l1) ->
  Permutation l1 l2 ->
  otherEntries l1 = otherEntries l2 ->
  l1 = l2.
Proof.
  revert l2. induction l1 as [| a r1 IH]; intros l2 Hs1 Hs2 Hnd Hp Ho.
  - apply Permutation_nil in Hp. now subst.
  - destruct l2 as [| b r2].
    + symmetry in Hp. apply Permutation_nil in Hp. discriminate.
    + destruct (isIndex (fst a)) eqn:Ha.
      * assert (Hina : In a (b :: r2))
          by (eapply Permutation_in; [exact Hp | now left]).
        assert (Hinb : In b (a :: r1))
          by (eapply Permutation_in; [symmetry; exact Hp | now left]).
        inversion Hs1 as [| ? ? Hr1 Hall1]; subst.
        inversion Hs2 as [| ? ? Hr2 Hall2]; subst.
        rewrite Forall_forall in Hall1, Hall2.
        assert (Hab : a = b).
        { destruct Hina as [Heq | Hina]; [now symmetry |].
          destruct Hinb as [Heq | Hinb]; [exact Heq |].
          apply (entry_of_key (a :: r1)); [exact Hnd | now left | now right |].
          pose proof (Hall1 b Hinb) as H1. pose proof (Hall2 a Hina) as H2.
          unfold cmpLe, enumCompare, isIndex in *.
          destruct (arrayIndex (fst a)) as [n |] eqn:Hna; [| discriminate].
          destruct (arrayIndex (fst b)) as [m |] eqn:Hnb; [| lia].
          assert (n = m) by lia. subst m.
          eapply arrayIndex_inj; eassumption. }
        subst b. f_equal.
        apply IH; [exact Hr1 | exact Hr2 | | |].
        -- cbn [map] in Hnd. now inversion Hnd.
        -- eapply Permutation_cons_inv; exact Hp.
        -- rewrite !otherEntries_cons, Ha in Ho. exact Ho.
      * rewrite <- (sorted_others_only a r1 Ha Hs1).
        assert (Hb : isIndex (fst b) = false).
        { assert (Hinb : In b (a :: r1))
            by (eapply Permutation_in; [symmetry; exact Hp | now left]).
          destruct Hinb as [<- | Hinb]; [exact Ha |].
          inversion Hs1 as [| ? ? _ Hall1]; subst.
          rewrite Forall_forall in Hall1.
          exact (enumLe_from_other a b Ha (Hall1 b Hinb)). }
        rewrite <- (sorted_others_only b r2 Hb Hs2). exact Ho.
Qed.

(** An object rebuilt from its own entries is the same object. *)
Lemma Object_fromEntries_entries (props : list (string * V)) :
  NoDup (map fst props) -> StronglySorted enumLe props ->
  Object_fromEntries (Object_entries props) = props.
Proof.
  intros Hnd Hs. unfold Object_entries.
  destruct (Object_fromEntries_spec props Hnd) as [Hp [Hs' Ho]].
  apply enumeration_unique; try assumption.
  eapply Permutation_NoDup; [| exact Hnd].
  apply Permutation_map. now symmetry.
Qed.

End ObjFacts.

(* ================================================================== *)
(** * The concrete host has a consistent collation *)

Lemma ascii_compare_cases (x y : ascii) :
  match Ascii.compare x y with
  | Eq => x = y
  | Lt => (N_of_ascii x < N_of_ascii y)%N
  | Gt => (N_of_ascii y < N_of_ascii x)%N
  end.
Proof.
  unfold Ascii.compare.
  destruct (N.compare_spec (N_of_ascii x) (N_of_ascii y)) as [Heq | Hlt | Hgt];
    try assumption.
  rewrite <- (ascii_N_embedding x), <- (ascii_N_embedding y). now rewrite Heq.
Qed.

Lemma string_compare_refl (s : string) : String.compare s s = Eq.
Proof.
  induction s as [| c s IH]; [reflexivity |].
  simpl. pose proof (ascii_compare_cases c c) as Hc.
  destruct (Ascii.compare c c); [exact IH | lia | lia].
Qed.

Lemma string_compare_le_trans (a b c : string) :
  String.compare a b <> Gt -> String.compare b c <> Gt ->
  String.compare a c <> Gt.
Proof.
  revert b c. induction a as [| x a IH]; intros [| y b] [| z c]; simpl;
    try congruence.
  pose proof (ascii_compare_cases x y) as Hxy.
  pose proof (ascii_compare_cases y z) as Hyz.
  pose proof (ascii_compare_cases x z) as Hxz.
  destruct (Ascii.compare x y), (Ascii.compare y z), (Ascii.compare x z);
    subst; try congruence; try lia; try (intros; discriminate).
  apply IH.
Qed.

Lemma codeUnitCompare_le (a b : string) :
  (Model.codeUnitCompare a b <= 0)%Z <-> String.compare a b <> Gt.
Proof.
  unfold Model.codeUnitCompare.
  destruct (String.compare a b); split; intros; try lia; try discriminate;
    congruence.
Qed.

(** Equal under the code-unit collation means equal. *)
Lemma codeUnitCompare_antisym (a b : string) :
  (Model.codeUnitCompare a b <= 0)%Z -> (Model.codeUnitCompare b a <= 0)%Z ->
  a = b.
Proof.
  rewrite !codeUnitCompare_le, (String.compare_antisym b a).
  intros Hab Hba. apply String.compare_eq_iff.
  destruct (String.compare a b); simpl in *; congruence.
Qed.

Lemma ModelHostLaws : HostLaws ModelHost.
Proof.
  split; cbn [localeCompare ModelHost].
  - intros a b. rewrite !codeUnitCompare_le, (String.compare_antisym b a).
    destruct (String.compare a b); simpl; [left | left | right]; discriminate.
  - intros a b c. rewrite !codeUnitCompare_le. apply string_compare_le_trans.
Qed.

(* ================================================================== *)
(** * [normalizeForCompare] *)

Section NormalizeFacts.
Context {H : Host} {L : HostLaws H}.

Lemma compareSerialized_total (a b : Value Number) :
  cmpLe compareSerialized a b \/ cmpLe compareSerialized b a.
Proof. apply localeCompare_total. Qed.

Lemma compareSerialized_trans (a b c : Value Number) :
  cmpLe compareSerialized a b -> cmpLe compareSerialized b c ->
  cmpLe compareSerialized a c.
Proof. apply localeCompare_trans. Qed.

Lemma compareKeys_total (a b : string * Value Number) :
  cmpLe compareKeys a b \/ cmpLe compareKeys b a.
Proof. apply localeCompare_total. Qed.

Lemma compareKeys_trans (a b c : string * Value Number) :
  cmpLe compareKeys a b -> cmpLe compareKeys b c -> cmpLe compareKeys a c.
Proof. apply localeCompare_trans. Qed.

Lemma nodupb_sound (l : list string) : nodupb l = true -> NoDup l.
Proof.
  induction l as [| x r IH]; intros Hb; [constructor |].
  cbn [nodupb] in Hb. apply andb_true_iff in Hb. destruct Hb as [Hx Hr].
  constructor; [| now apply IH].
  intros Hin. apply negb_true_iff in Hx.
  assert (Hex : existsb (String.eqb x) r = true).
  { apply existsb_exists. exists x. split; [exact Hin | apply String.eqb_refl]. }
  congruence.
Qed.

Lemma uniqueKeysb_sound (v : Value Number) : uniqueKeysb v = true -> UniqueKeys v.
Proof.
  induction v as [| b | n | s | elems IH | props IH] using Value_ind';
    intros Hb; try constructor.
  - cbn [uniqueKeysb] in Hb. rewrite forallb_forall in Hb.
    rewrite Forall_forall in IH |- *. intros x Hx. apply IH; auto.
  - cbn [uniqueKeysb] in Hb. apply andb_true_iff in Hb. now apply nodupb_sound.
  - cbn [uniqueKeysb] in Hb. apply andb_true_iff in Hb. destruct Hb as [_ Hb].
    rewrite forallb_forall in Hb.
    rewrite Forall_forall in IH |- *. intros x Hx. apply IH; auto.
Qed.

Lemma map_fixed {A : Type} (f : A -> A) (l : list A) :
  (forall x, In x l -> f x = x) -> map f l = l.
Proof.
  intros Hf. rewrite <- (map_id l) at 2. now apply map_ext_in.
Qed.

Lemma deep_object (options : Options) (props : list (string * Value Number)) :
  deep options (JObject props)
  = JObject (Obj.Object_fromEntries (deepEntries options props)).
Proof. reflexivity. Qed.

Lemma deepEntries_perm (options : Options) (props : list (string * Value Number)) :
  Permutation (deepEntries options props)
              (map (fun kv => (fst kv, deep options (snd kv))) props).
Proof.
  unfold deepEntries. destruct (sortKeys options); [| reflexivity].
  apply Array_sort_perm.
Qed.

Lemma deepEntries_keys (options : Options) (props : list (string * Value Number)) :
  Permutation (map fst (deepEntries options props)) (map fst props).
Proof.
  rewrite (Permutation_map fst (deepEntries_perm options props)).
  rewrite map_map. cbn [fst]. reflexivity.
Qed.

(** Rebuilding a normalised object from its sorted entries gives the same
    object. *)
Lemma fromEntries_sorted_again (entries : list (string * Value Number)) :
  NoDup (map fst entries) ->
  Obj.Object_fromEntries
    (Array_sort compareKeys
       (Obj.Object_fromEntries (Array_sort compareKeys entries)))
  = Obj.Object_fromEntries (Array_sort compareKeys entries).
Proof.
  intros Hnd.
  assert (Hnd1 : NoDup (map fst (Array_sort compareKeys entries))).
  { eapply Permutation_NoDup; [| exact Hnd].
    apply Permutation_map. symmetry. apply Array_sort_perm. }
  destruct (Object_fromEntries_spec _ Hnd1) as [Hp [Hs Ho]].
  remember (Obj.Object_fromEntries (Array_sort compareKeys entries)) as o eqn:Eo.
  assert (Hndo : NoDup (map fst o)).
  { eapply Permutation_NoDup; [| exact Hnd1].
    apply Permutation_map. now symmetry. }
  assert (Hnd2 : NoDup (map fst (Array_sort compareKeys o))).
  { eapply Permutation_NoDup; [| exact Hndo].
    apply Permutation_map. symmetry. apply Array_sort_perm. }
  destruct (Object_fromEntries_spec _ Hnd2) as [Hp2 [Hs2 Ho2]].
  apply enumeration_unique; try assumption.
  - eapply Permutation_NoDup; [| exact Hnd2].
    apply Permutation_map. now symmetry.
  - rewrite Hp2. apply Array_sort_perm.
  - unfold Obj.otherEntries in *. rewrite Ho2.
    rewrite (filter_Array_sort compareKeys compareKeys_total compareKeys_trans).
    rewrite Ho.
    rewrite (filter_Array_sort compareKeys compareKeys_total compareKeys_trans).
    apply (Array_sort_idempotent compareKeys compareKeys_total compareKeys_trans).
Qed.

(** C5.  [normalizeForCompare] is idempotent: normalising a normalised
    value, with the same options, changes nothing.  The values are those
    of the data model, whose objects have pairwise distinct keys, and the
    host's [localeCompare] is a consistent comparison. *)
Theorem normalizeForCompare_idempotent (v : Value Number) (options : Options) :
  UniqueKeys v ->
  normalizeForCompare (normalizeForCompare v options) options
  = normalizeForCompare v options.
Proof.
  unfold normalizeForCompare.
  induction v as [| b | n | s | elems IH | props IH] using Value_ind';
    intros Huk; try reflexivity.
  - inversion Huk as [| | | | ? Hall |]; subst.
    assert (Hfix : forall y, In y (map (deep options) elems) ->
                             deep options y = y).
    { intros y Hy. apply in_map_iff in Hy. destruct Hy as [x [<- Hx]].
      rewrite Forall_forall in IH, Hall. apply IH; [exact Hx | now apply Hall]. }
    cbn [deep]. destruct (ignoreArrayOrder options) eqn:Hio.
    + f_equal. rewrite map_fixed.
      * apply (Array_sort_idempotent compareSerialized
                 compareSerialized_total compareSerialized_trans).
      * intros y Hy. apply Hfix.
        eapply Permutation_in; [apply Array_sort_perm | exact Hy].
    + f_equal. now apply map_fixed.
  - inversion Huk as [| | | | | ? Hnd Hall]; subst.
    rewrite deep_object.
    set (entries := deepEntries options props).
    assert (Hnde : NoDup (map fst entries)).
    { eapply Permutation_NoDup; [| exact Hnd].
      symmetry. apply deepEntries_keys. }
    destruct (Object_fromEntries_spec entries Hnde) as [Hp [Hs Ho]].
    rewrite deep_object.
    assert (Hmap : map (fun kv => (fst kv, deep options (snd kv)))
                       (Obj.Object_fromEntries entries)
                   = Obj.Object_fromEntries entries).
    { apply map_fixed. intros [k y] Hy. cbn [fst snd]. f_equal.
      assert (Hin : In (k, y) (map (fun kv => (fst kv, deep options (snd kv))) props)).
      { eapply Permutation_in; [apply deepEntries_perm |].
        eapply Permutation_in; [exact Hp | exact Hy]. }
      apply in_map_iff in Hin. destruct Hin as [[k' x] [Heq Hx]].
      cbn [fst snd] in Heq. inversion Heq; subst.
      rewrite Forall_forall in IH, Hall.
      apply (IH (k, x) Hx). exact (Hall (k, x) Hx). }
    f_equal. unfold deepEntries at 1. rewrite Hmap.
    destruct (sortKeys options) eqn:Hsk.
    + unfold entries, deepEntries. rewrite Hsk.
      apply fromEntries_sorted_again.
      rewrite map_map. cbn [fst]. exact Hnd.
    + apply Object_fromEntries_entries; [| exact Hs].
      eapply Permutation_NoDup; [| exact Hnde].
      apply Permutation_map. now symmetry.
Qed.

(** The options under which elements are reordered. *)
Lemma deep_array_sorted (options : Options) (elems : list (Value Number)) :
  ignoreArrayOrder options = true ->
  deep options (JArray elems)
  = JArray (Array_sort compareSerialized (map (deep options) elems)).
Proof. intros Hio. cbn [deep]. now rewrite Hio. Qed.

(** C2 (as the code has it).  With [ignoreArrayOrder] set, an array is
    normalised to its normalised elements, rearranged: in ascending
    [localeCompare] order of the compact text [JSON.stringify(element)]
    (not of the indented text of the canonical serialiser), elements that
    compare equal to one another keeping the order they had. *)
Theorem deep_array_order (options : Options) (elems : list (Value Number)) :
  ignoreArrayOrder options = true ->
  exists out,
    normalizeForCompare (JArray elems) options = JArray out /\
    Permutation out (map (deep options) elems) /\
    StronglySorted (cmpLe compareSerialized) out /\
    (forall p : Value Number -> bool,
        (forall a b, p a = true -> p b = true -> cmpLe compareSerialized a b) ->
        filter p out = filter p (map (deep options) elems)).
Proof.
  intros Hio. unfold normalizeForCompare. rewrite deep_array_sorted by exact Hio.
  eexists. split; [reflexivity |].
  split; [apply Array_sort_perm |].
  split; [apply (Array_sort_sorted compareSerialized
                   compareSerialized_total compareSerialized_trans) |].
  intros p Hp.
  apply (Array_sort_stable compareSerialized
           compareSerialized_total compareSerialized_trans).
  intros a b _ _. apply Hp.
Qed.

Lemma Forall2_map_eq {A B : Type} (f : A -> B) (R : A -> A -> Prop)
  (l l' : list A) :
  Forall2 R l l' ->
  Forall (fun x => forall y, R x y -> f x = f y) l ->
  map f l = map f l'.
Proof.
  induction 1 as [| x y l l' Hxy _ IH]; intros Hall; [reflexivity |].
  inversion Hall as [| ? ? Hx Hl]; subst.
  cbn [map]. now rewrite (Hx y Hxy), IH.
Qed.

Lemma TieFree_elems (options : Options) (elems : list (Value Number)) :
  TieFree options (JArray elems) ->
  Forall (TieFree options) elems /\
  (forall a b,
      In a (map (deep options) elems) -> In b (map (deep options) elems) ->
      cmpLe compareSerialized a b -> cmpLe compareSerialized b a -> a = b).
Proof. intros Htf. inversion Htf; subst. now split. Qed.

Lemma TieFree_props (options : Options) (props : list (string * Value Number)) :
  TieFree options (JObject props) ->
  Forall (fun kv => TieFree options (snd kv)) props.
Proof. intros Htf. now inversion Htf. Qed.

(** C6 (as the code has it).  With [ignoreArrayOrder] set,
    [normalizeForCompare] gives the same value before and after the
    elements of any arrays of the input are rearranged, provided that in
    each array no two distinct normalised elements compare equal by their
    serialisation. *)
Theorem normalizeForCompare_order_insensitive
  (v w : Value Number) (options : Options) :
  ignoreArrayOrder options = true ->
  TieFree options v ->
  Permuted v w ->
  normalizeForCompare v options = normalizeForCompare w options.
Proof.
  unfold normalizeForCompare. intros Hio. revert w.
  induction v as [| b | n | s | elems IH | props IH] using Value_ind';
    intros w Htf Hperm; inversion Hperm as [| l l' l'' Hall Hp | ps qs Hall];
    subst; try reflexivity.
  - destruct (TieFree_elems _ _ Htf) as [Htfs Hties].
    assert (Hmap : map (deep options) elems = map (deep options) l').
    { apply (Forall2_map_eq (deep options) Permuted); [exact Hall |].
      rewrite Forall_forall in IH, Htfs |- *.
      intros x Hx y Hxy. apply IH; [exact Hx | now apply Htfs | exact Hxy]. }
    rewrite !deep_array_sorted by exact Hio. f_equal.
    apply (Array_sort_perm_unique compareSerialized
             compareSerialized_total compareSerialized_trans).
    + rewrite Hmap. now apply Permutation_map.
    + exact Hties.
  - pose proof (TieFree_props _ _ Htf) as Htfs.
    rewrite !deep_object. do 2 f_equal. unfold deepEntries.
    assert (Hmap : map (fun kv => (fst kv, deep options (snd kv))) props
                   = map (fun kv => (fst kv, deep options (snd kv))) qs).
    { apply (Forall2_map_eq _ (fun p q => fst p = fst q /\ Permuted (snd p) (snd q)));
        [exact Hall |].
      rewrite Forall_forall in IH, Htfs |- *.
      intros x Hx y [Hk Hxy]. rewrite Hk. f_equal.
      apply IH; [exact Hx | now apply Htfs | exact Hxy]. }
    now rewrite Hmap.
Qed.

(** X14.  What holds of the key order: without [sortKeys] the object keeps its
    keys in the order it had. *)
Lemma deep_object_keeps_order (options : Options)
  (props : list (string * Value Number)) :
  sortKeys options = false ->
  NoDup (map fst props) ->
  StronglySorted (cmpLe Obj.enumCompare) props ->
  deep options (JObject props)
  = JObject (map (fun kv => (fst kv, deep options (snd kv))) props).
Proof.
  intros Hsk Hnd Hs. rewrite deep_object. f_equal.
  unfold deepEntries. rewrite Hsk.
  apply (Object_fromEntries_entries
           (map (fun kv => (fst kv, deep options (snd kv))) props)).
  - rewrite map_map. cbn [fst]. exact Hnd.
  - clear Hnd. induction Hs as [| kv r Hr IH Hkv]; cbn [map]; constructor.
    + exact IH.
    + rewrite Forall_forall in Hkv |- *. intros z Hz.
      apply in_map_iff in Hz. destruct Hz as [y [<- Hy]].
      exact (Hkv y Hy).
Qed.

(** X13.  With [sortKeys], the keys that are not array indices come out in
    ascending [localeCompare] order, after the index keys. *)
Lemma deep_object_sorts_other_keys (options : Options)
  (props : list (string * Value Number)) :
  sortKeys options = true ->
  NoDup (map fst props) ->
  exists out,
    deep options (JObject props) = JObject out /\
    Permutation out (map (fun kv => (fst kv, deep options (snd kv))) props) /\
    StronglySorted (cmpLe Obj.enumCompare) out /\
    StronglySorted (cmpLe compareKeys) (Obj.otherEntries out).
Proof.
  intros Hsk Hnd. rewrite deep_object. eexists. split; [reflexivity |].
  assert (Hnde : NoDup (map fst (deepEntries options props))).
  { eapply Permutation_NoDup; [| exact Hnd]. symmetry. apply deepEntries_keys. }
  destruct (Object_fromEntries_spec _ Hnde) as [Hp [Hs Ho]].
  split; [now rewrite Hp, deepEntries_perm |].
  split; [exact Hs |].
  rewrite Ho. unfold deepEntries. rewrite Hsk. unfold Obj.otherEntries.
  apply filter_sorted.
  apply (Array_sort_sorted compareKeys compareKeys_total compareKeys_trans).
Qed.

End NormalizeFacts.

(* ================================================================== *)
(** * The normaliser on the concrete host *)

Section OnModelHost.
Import Examples.
#[local] Existing Instance ModelHost.

Lemma value_mixed_unique_keys : UniqueKeys (H := ModelHost) value_mixed.
Proof. apply (@uniqueKeysb_sound ModelHost). vm_compute. reflexivity. Qed.

(** The idempotence theorem at the concrete host and a sample with index
    keys, nested arrays and a nested object. *)
Lemma normalizeForCompare_idempotent_witness :
  UniqueKeys (H := ModelHost) value_mixed /\
  normalizeForCompare (H := ModelHost)
    (normalizeForCompare value_mixed (mkOptions true true)) (mkOptions true true)
  = normalizeForCompare value_mixed (mkOptions true true).
Proof.
  split; [exact value_mixed_unique_keys |].
  apply (@normalizeForCompare_idempotent ModelHost ModelHostLaws).
  exact value_mixed_unique_keys.
Defined.

(** The sample normalises to the index keys, then [a] and [b], with the
    arrays in ascending order. *)
Example normalizeForCompare_value_mixed :
  normalizeForCompare (H := ModelHost) value_mixed (mkOptions true true)
  = JObject [("9", num 2); ("10", num 1);
             ("a", JObject [("y", JArray [num 1; num 2]); ("z", num 1)]);
             ("b", JArray [num 1; num 2; num 3])].
Proof. vm_compute. reflexivity. Qed.

(** The array-order theorem at the concrete host, on [[2,1]]. *)
Lemma deep_array_order_witness :
  ignoreArrayOrder (mkOptions false true) = true /\
  exists out,
    normalizeForCompare (H := ModelHost) value_2_1 (mkOptions false true)
      = JArray out /\
    Permutation out (map (deep (mkOptions false true)) [num 2; num 1]) /\
    StronglySorted (cmpLe compareSerialized) out /\
    (forall p : Value Number -> bool,
        (forall a b, p a = true -> p b = true -> cmpLe compareSerialized a b) ->
        filter p out = filter p (map (deep (mkOptions false true)) [num 2; num 1])).
Proof.
  split; [reflexivity |].
  apply (@deep_array_order ModelHost ModelHostLaws). reflexivity.
Defined.

(** C2 as stated fails: on [[[1],[1,2]]] the normalised elements come out
    as [[1,2]] then [[1]], the order of their compact texts, while by the
    text of the canonical serialiser [[1,2]] sorts strictly after [[1]]. *)
Lemma deep_array_not_in_canonical_order :
  normalizeForCompare (H := ModelHost) value_nested_arrays (mkOptions false true)
  = JArray [JArray [num 1; num 2]; JArray [num 1]] /\
  (compareCanonical (H := ModelHost) (JArray [num 1; num 2]) (JArray [num 1]) > 0)%Z /\
  ~ StronglySorted (cmpLe (compareCanonical (H := ModelHost)))
      [JArray [num 1; num 2]; JArray [num 1]].
Proof.
  split; [vm_compute; reflexivity |].
  split; [vm_compute; reflexivity |].
  intros Hs. inversion Hs as [| ? ? _ Hall]; subst.
  inversion Hall as [| ? ? Hle _]; subst.
  vm_compute in Hle. apply Hle. reflexivity.
Qed.

Lemma tieFree_2_1 : TieFree (H := ModelHost) (mkOptions false true) value_2_1.
Proof.
  unfold value_2_1. apply (@TF_array ModelHost).
  - repeat constructor.
  - intros a b Ha Hb Hab Hba.
    assert (Heq : JSON_stringify (H := ModelHost) a = JSON_stringify b)
      by (apply codeUnitCompare_antisym; assumption).
    cbn [map In deep] in Ha, Hb.
    destruct Ha as [<- | [<- | []]], Hb as [<- | [<- | []]];
      try reflexivity; vm_compute in Heq; discriminate.
Qed.

Lemma permuted_2_1 : Permuted (H := ModelHost) value_2_1 value_1_2.
Proof.
  unfold value_2_1, value_1_2. apply (@Permuted_array ModelHost _ [num 2; num 1]).
  - repeat constructor.
  - apply perm_swap.
Qed.

(** The order-insensitivity theorem at the concrete host, on [[2,1]] and
    [[1,2]]. *)
Lemma normalizeForCompare_order_insensitive_witness :
  ignoreArrayOrder (mkOptions false true) = true /\
  TieFree (H := ModelHost) (mkOptions false true) value_2_1 /\
  Permuted (H := ModelHost) value_2_1 value_1_2 /\
  normalizeForCompare (H := ModelHost) value_2_1 (mkOptions false true)
  = normalizeForCompare value_1_2 (mkOptions false true).
Proof.
  split; [reflexivity |].
  split; [exact tieFree_2_1 |].
  split; [exact permuted_2_1 |].
  apply (@normalizeForCompare_order_insensitive ModelHost ModelHostLaws).
  - reflexivity.
  - exact tieFree_2_1.
  - exact permuted_2_1.
Defined.

(** The text [[null,1e999]] decodes to [null] and an infinity. *)
Example parse_null_inf :
  JSON_parse (Host := ModelHost) text_null_inf = Normal value_null_inf.
Proof. vm_compute. reflexivity. Qed.

(** C6 as stated fails: [null] and an infinity both serialise to [null],
    the sort leaves them in the order they came in, and the two
    arrangements normalise to different values. *)
Lemma normalizeForCompare_order_sensitive_on_ties :
  Permuted (H := ModelHost) value_null_inf value_inf_null /\
  normalizeForCompare (H := ModelHost) value_null_inf (mkOptions true true)
    = value_null_inf /\
  normalizeForCompare (H := ModelHost) value_inf_null (mkOptions true true)
    = value_inf_null /\
  normalizeForCompare (H := ModelHost) value_null_inf (mkOptions true true)
    <> normalizeForCompare value_inf_null (mkOptions true true).
Proof.
  split.
  { unfold value_null_inf, value_inf_null.
    apply (@Permuted_array ModelHost _ [JNull; JNumber (Model.MInfinity false)]).
    - repeat constructor.
    - apply perm_swap. }
  split; [vm_compute; reflexivity |].
  split; [vm_compute; reflexivity |].
  vm_compute. discriminate.
Qed.

(** C3.  On the concrete host, [{"10":1,"9":2}] normalised with [sortKeys]
    enumerates [9] before [10], although [10] sorts before [9]: the object
    rebuilt from the sorted entries enumerates index keys numerically. *)
Theorem deep_sortKeys_index_keys_numeric :
  JSON_parse (Host := ModelHost) text_keys_10_9 = Normal value_keys_10_9 /\
  Array_sort (compareKeys (H := ModelHost)) [("9", num 2); ("10", num 1)]
    = [("10", num 1); ("9", num 2)] /\
  normalizeForCompare (H := ModelHost) value_keys_10_9 (mkOptions true false)
    = JObject [("9", num 2); ("10", num 1)] /\
  (localeCompare (Host := ModelHost) "10" "9" < 0)%Z.
Proof. repeat split; vm_compute; reflexivity. Qed.

End OnModelHost.

(* ================================================================== *)
(** * The failure path of [useJsonDiff] *)

Section FailurePath.
Context {H : Host}.

Lemma tryParseJson_error_iff (input : string) :
  instanceofError (tryParseJson input) = true <->
  exists e, JSON_parse input = Throw e.
Proof.
  unfold tryParseJson.
  destruct (JSON_parse input) as [v | e]; simpl; split.
  - discriminate.
  - intros [e He]. discriminate.
  - intros _. now exists e.
  - reflexivity.
Qed.

(** When a side is an [Error], the result is computed from the two
    [message] reads alone: the branch that normalises, serialises and
    diffs is not the one taken. *)
Lemma useJsonDiff_failure_branch (beforeText afterText : string) (sk io : bool) :
  (instanceofError (tryParseJson (Str.trim beforeText))
   || instanceofError (tryParseJson (Str.trim afterText)))%bool = true ->
  useJsonDiff beforeText afterText sk io =
  bind (String_ (orElse (optMessage (tryParseJson (Str.trim beforeText)))
                        (optMessage (tryParseJson (Str.trim afterText)))))
       (fun s => Normal (ParseFailure s)).
Proof.
  unfold useJsonDiff.
  destruct (tryParseJson (Str.trim beforeText)) as [bv | be],
           (tryParseJson (Str.trim afterText)) as [av | ae];
    simpl; intros Hfail; try reflexivity; discriminate.
Qed.

(** When neither side is an [Error], the result is the differencer's. *)
Lemma useJsonDiff_success_branch (beforeText afterText : string) (sk io : bool)
  (bv av : Value Number) :
  tryParseJson (Str.trim beforeText) = inl bv ->
  tryParseJson (Str.trim afterText) = inl av ->
  useJsonDiff beforeText afterText sk io =
  Normal (Changes (diffJson
                     (JSON_stringify_2 (normalizeForCompare bv (mkOptions sk io)))
                     (JSON_stringify_2 (normalizeForCompare av (mkOptions sk io))))).
Proof.
  unfold useJsonDiff. intros -> ->. reflexivity.
Qed.

(** A parsed side without a truthy own [message] hands the report over to
    the failing side. *)
Lemma useJsonDiff_after_fails (beforeText afterText : string) (sk io : bool)
  (bv : Value Number) (e : Error) :
  tryParseJson (Str.trim beforeText) = inl bv ->
  orElse (optMessage (inl bv)) (Some (JString (message e)))
    = Some (JString (message e)) ->
  tryParseJson (Str.trim afterText) = inr e ->
  useJsonDiff beforeText afterText sk io = Normal (ParseFailure (message e)).
Proof.
  intros Hb Hm Ha.
  rewrite useJsonDiff_failure_branch by (rewrite Ha; apply orb_true_r).
  rewrite Hb, Ha. simpl optMessage at 2. rewrite Hm. reflexivity.
Qed.

(** C10.  When both sides fail to parse, the result is a [ParseFailure]
    whose message is the decoder message of the before side; the decoder
    message of the after side is reported exactly when that of the before
    side is empty. *)
Theorem useJsonDiff_both_fail (beforeText afterText : string) (sk io : bool)
  (eb ea : Error) :
  tryParseJson (Str.trim beforeText) = inr eb ->
  tryParseJson (Str.trim afterText) = inr ea ->
  useJsonDiff beforeText afterText sk io =
  Normal (ParseFailure (if String.eqb (message eb) EmptyString
                        then message ea else message eb)).
Proof.
  intros Hb Ha.
  rewrite useJsonDiff_failure_branch by (rewrite Hb; reflexivity).
  rewrite Hb, Ha. simpl.
  destruct (String.eqb (message eb) EmptyString); reflexivity.
Qed.

End FailurePath.

(** The theorem at the concrete host: an empty before text and the after
    text [not json]. *)
Lemma useJsonDiff_both_fail_witness :
  exists eb ea,
    tryParseJson (H := ModelHost) (Str.trim EmptyString) = inr eb /\
    tryParseJson (H := ModelHost) (Str.trim Examples.text_not_json) = inr ea /\
    useJsonDiff (H := ModelHost) EmptyString Examples.text_not_json true false =
    Normal (ParseFailure (if String.eqb (message eb) EmptyString
                          then message ea else message eb)).
Proof.
  eexists. eexists.
  split; [vm_compute; reflexivity |].
  split; [vm_compute; reflexivity |].
  apply (useJsonDiff_both_fail (H := ModelHost)); vm_compute; reflexivity.
Defined.

(** C1.  On the concrete host, with before [{"message":{"toString":0}}]
    and an empty after text, the after side fails to parse and
    [useJsonDiff] throws a [TypeError] instead of returning a
    [ParseFailure]. *)
Theorem useJsonDiff_throws_on_unprintable_message :
  instanceofError (tryParseJson (H := ModelHost) (Str.trim EmptyString)) = true /\
  useJsonDiff (H := ModelHost) Examples.text_message_unprintable EmptyString true false
  = Throw TypeError_toPrimitive.
Proof. split; vm_compute; reflexivity. Qed.

(** C4.  On the concrete host, with before [{"message":"hi"}] and after
    [not json], only the after side fails to parse, yet the reported
    message is the before side's property value [hi] and not the decoder
    message of the after side. *)
Theorem useJsonDiff_reports_own_message_property :
  exists bv ea,
    tryParseJson (H := ModelHost) (Str.trim Examples.text_message_hi) = inl bv /\
    tryParseJson (H := ModelHost) (Str.trim Examples.text_not_json) = inr ea /\
    useJsonDiff (H := ModelHost) Examples.text_message_hi Examples.text_not_json true false
    = Normal (ParseFailure "hi") /\
    message ea <> "hi".
Proof.
  eexists. eexists.
  split; [vm_compute; reflexivity |].
  split; [vm_compute; reflexivity |].
  split; [vm_compute; reflexivity |].
  vm_compute. discriminate.
Qed.

(** Scenario 3 of the specification, on the concrete host: before
    [{"a":1}] has no [message] property, and the decoder message of
    [not json] is reported. *)
Lemma scenario_after_not_json :
  exists ea,
    tryParseJson (H := ModelHost) (Str.trim Examples.text_not_json) = inr ea /\
    useJsonDiff (H := ModelHost) Examples.text_a1 Examples.text_not_json true false
    = Normal (ParseFailure (message ea)).
Proof.
  eexists. split; vm_compute; reflexivity.
Qed.

(** Scenario 5 of the specification, on the concrete host: two empty texts
    give a [ParseFailure]. *)
Lemma scenario_both_empty :
  exists m,
    useJsonDiff (H := ModelHost) EmptyString EmptyString true false
    = Normal (ParseFailure m).
Proof.
  eexists. vm_compute. reflexivity.
Qed.

(* ================================================================== *)
(** * The Format action *)

(** C9.  [onFormat] replaces the text of each side that parses by the
    indented serialisation of its value, leaves the text of a side that
    does not parse as it was, and touches nothing else in the state. *)
Theorem onFormat_frame {H : Host} (s : App.State) :
  App.before (App.onFormat s) =
    match tryParseJson (App.before s) with
    | inl bv => JSON_stringify_2 bv
    | inr _ => App.before s
    end /\
  App.after (App.onFormat s) =
    match tryParseJson (App.after s) with
    | inl av => JSON_stringify_2 av
    | inr _ => App.after s
    end /\
  App.sortKeys (App.onFormat s) = App.sortKeys s /\
  App.ignoreOrder (App.onFormat s) = App.ignoreOrder s /\
  App.copied (App.onFormat s) = App.copied s.
Proof.
  unfold App.onFormat.
  destruct (tryParseJson (App.before s)) as [bv | be],
           (tryParseJson (App.after s)) as [av | ae];
    simpl; repeat split; reflexivity.
Qed.

(** On the concrete host: a state whose before text is [{"a":1}] and whose
    after text is [not json] keeps its after text. *)
Example onFormat_sample :
  App.after (App.onFormat (H := ModelHost) Examples.sampleState)
    = Examples.text_not_json /\
  App.before (App.onFormat (H := ModelHost) Examples.sampleState)
    = "{" ++ Str.str1 Str.LF ++ "  " ++ Examples.quoted "a" ++ ": 1"
          ++ Str.str1 Str.LF ++ "}".
Proof. split; vm_compute; reflexivity. Qed.

(** [onSwap] exchanges the two texts. *)
Lemma onSwap_spec (s : App.State) :
  App.before (App.onSwap s) = App.after s /\
  App.after (App.onSwap s) = App.before s.
Proof. split; reflexivity. Qed.

(* ================================================================== *)
(** * The two formatters *)

Section Formatters.
Import Format.

Lemma last_index_iff (len i : nat) (rest : list string) :
  i + S (List.length rest) = len ->
  Nat.eqb i (len - 1) = match rest with [] => true | _ :: _ => false end.
Proof.
  intros Hlen. destruct rest as [| y rest]; simpl in *.
  - apply Nat.eqb_eq. lia.
  - apply Nat.eqb_neq. lia.
Qed.

Lemma textLoop_spec (part : Change) (len : nat) (arr : list string) :
  forall i lines,
    i + List.length arr = len ->
    textLoop part len i arr lines =
    (lines ++ map (fun l => (prefixOf part ++ l)%string) (keptLines arr))%list.
Proof.
  induction arr as [| l rest IH]; intros i lines Hlen.
  - simpl. now rewrite app_nil_r.
  - cbn [textLoop]. rewrite (last_index_iff len i rest) by exact Hlen.
    destruct rest as [| y rest].
    + cbn [keptLines andb]. destruct (String.eqb l EmptyString); simpl.
      * now rewrite app_nil_r.
      * reflexivity.
    + cbn [andb]. rewrite IH by (simpl in *; lia).
      cbn [keptLines map]. now rewrite <- app_assoc.
Qed.

Lemma renderLoop_spec (part : Change) (len : nat) (lines : list string) :
  forall i elements lineKey,
    i + List.length lines = len ->
    renderLoop part len i lines (elements, lineKey) =
    ((elements ++ spansFrom part lineKey (keptLines lines))%list,
     lineKey + List.length (keptLines lines)).
Proof.
  induction lines as [| l rest IH]; intros i elements lineKey Hlen.
  - simpl. now rewrite app_nil_r, Nat.add_0_r.
  - cbn [renderLoop]. rewrite (last_index_iff len i rest) by exact Hlen.
    destruct rest as [| y rest].
    + cbn [keptLines andb]. destruct (String.eqb l EmptyString); simpl.
      * now rewrite app_nil_r, Nat.add_0_r.
      * now rewrite Nat.add_1_r.
    + cbn [andb]. rewrite IH by (simpl in *; lia).
      change (keptLines (l :: y :: rest)) with (l :: keptLines (y :: rest)).
      cbn [spansFrom]. rewrite <- app_assoc. cbn [List.length app].
      now rewrite Nat.add_succ_r.
Qed.

Lemma spansFrom_texts (part : Change) (k : nat) (ls : list string) :
  map (fun sp => (classNameOf part, prefix sp, line sp)) (spansFrom part k ls)
  = map (fun l => (classNameOf part, prefixOf part, l)) ls /\
  map textOfSpan (spansFrom part k ls)
  = map (fun l => (prefixOf part ++ l)%string) ls.
Proof.
  revert k. induction ls as [| l ls IH]; intros k.
  - split; reflexivity.
  - cbn [spansFrom]. destruct (IH (S k)) as [IH1 IH2].
    split; cbn [map]; [rewrite IH1 | rewrite IH2]; reflexivity.
Qed.

(** The state of [renderedLines] after the outer loop. *)
Lemma render_fold (parts : list Change) :
  forall elements lineKey,
    map textOfSpan
      (fst (fold_left
              (fun st part =>
                 let lines := Str.split Str.LF (value part) in
                 renderLoop part (List.length lines) 0 lines st)
              parts (elements, lineKey)))
    = (map textOfSpan elements
       ++ flat_map (fun part =>
                      map (fun l => (prefixOf part ++ l)%string) (linesOfPart part))
                   parts)%list.
Proof.
  induction parts as [| part parts IH]; intros elements lineKey.
  - simpl. now rewrite app_nil_r.
  - cbn [fold_left flat_map]. cbv zeta.
    rewrite renderLoop_spec by reflexivity.
    rewrite IH, map_app, <- app_assoc.
    now rewrite (proj2 (spansFrom_texts part lineKey _)).
Qed.

Lemma spansFrom_meta (part : Change) (ls : list string) :
  forall k,
    map (fun sp => (className sp, prefix sp, line sp)) (spansFrom part k ls)
    = map (fun l => (("line " ++ classNameOf part)%string, prefixOf part, l)) ls.
Proof.
  induction ls as [| l ls IH]; intros k; cbn [spansFrom map].
  - reflexivity.
  - now rewrite IH.
Qed.

Lemma render_fold_meta_from (parts : list Change) :
  forall elements lineKey,
    map (fun sp => (className sp, prefix sp, line sp))
      (fst (fold_left
              (fun st part =>
                 let lines := Str.split Str.LF (value part) in
                 renderLoop part (List.length lines) 0 lines st)
              parts (elements, lineKey)))
    = (map (fun sp => (className sp, prefix sp, line sp)) elements
       ++ flat_map (fun part =>
                      map (fun l => (("line " ++ classNameOf part)%string,
                                     prefixOf part, l))
                          (linesOfPart part)) parts)%list.
Proof.
  induction parts as [| part parts IH]; intros elements lineKey.
  - simpl. now rewrite app_nil_r.
  - cbn [fold_left flat_map]. cbv zeta.
    rewrite renderLoop_spec by reflexivity.
    rewrite IH, map_app, <- app_assoc.
    now rewrite spansFrom_meta.
Qed.

Lemma render_fold_meta (parts : list Change) :
  map (fun sp => (className sp, prefix sp, line sp))
    (fst (fold_left
            (fun st part =>
               let lines := Str.split Str.LF (value part) in
               renderLoop part (List.length lines) 0 lines st)
            parts ([], 0)))
  = flat_map (fun part =>
                map (fun l => (("line " ++ classNameOf part)%string,
                               prefixOf part, l))
                    (linesOfPart part)) parts.
Proof. apply render_fold_meta_from. Qed.

Lemma text_fold (parts : list Change) :
  forall lines,
    fold_left
      (fun lines part =>
         let arr := Str.split Str.LF (value part) in
         textLoop part (List.length arr) 0 arr lines)
      parts lines
    = (lines
       ++ flat_map (fun part =>
                      map (fun l => (prefixOf part ++ l)%string) (linesOfPart part))
                   parts)%list.
Proof.
  induction parts as [| part parts IH]; intros lines.
  - simpl. now rewrite app_nil_r.
  - cbn [fold_left flat_map]. cbv zeta.
    rewrite textLoop_spec by reflexivity.
    now rewrite IH, <- app_assoc.
Qed.

Lemma prefixOf_cases (part : Change) :
  prefixOf part = "+ " \/ prefixOf part = "- " \/ prefixOf part = "  ".
Proof.
  unfold prefixOf. destruct (added part), (removed part); auto.
Qed.

Lemma split_nonempty (sep : ascii) (s : string) : Str.split sep s <> [].
Proof.
  destruct s as [| c r]; simpl; [discriminate |].
  destruct (Ascii.eqb c sep); [discriminate |].
  destruct (Str.split sep r); discriminate.
Qed.

Lemma split_fragments (sep : ascii) (s : string) :
  Forall (fun f => Str.hasChar sep f = false) (Str.split sep s).
Proof.
  induction s as [| c r IH]; simpl.
  - repeat constructor.
  - destruct (Ascii.eqb c sep) eqn:Hc.
    + constructor; [reflexivity | exact IH].
    + destruct (Str.split sep r) as [| f fs]; inversion IH; subst;
        repeat constructor; simpl; try rewrite Hc; simpl; auto.
Qed.

Lemma keptLines_incl (l : list string) (x : string) :
  In x (keptLines l) -> In x l.
Proof.
  induction l as [| y r IH]; simpl; [tauto |].
  destruct r as [| z r].
  - destruct (String.eqb y EmptyString); simpl; tauto.
  - intros [-> | Hin]; [now left | right; now apply IH].
Qed.

Lemma split_append_sep (sep : ascii) (x rest : string) :
  Str.hasChar sep x = false ->
  Str.split sep (x ++ String sep rest) = x :: Str.split sep rest.
Proof.
  induction x as [| c x IH]; simpl; intros Hx.
  - now rewrite Ascii.eqb_refl.
  - apply orb_false_iff in Hx. destruct Hx as [Hc Hx].
    rewrite Hc, IH by exact Hx. reflexivity.
Qed.

Lemma split_single (sep : ascii) (x : string) :
  Str.hasChar sep x = false -> Str.split sep x = [x].
Proof.
  induction x as [| c x IH]; simpl; intros Hx; [reflexivity |].
  apply orb_false_iff in Hx. destruct Hx as [Hc Hx].
  rewrite Hc, IH by exact Hx. reflexivity.
Qed.

(** Splitting a joined text gives back the lines that were joined. *)
Lemma split_join (sep : ascii) (ls : list string) :
  ls <> [] ->
  Forall (fun l => Str.hasChar sep l = false) ls ->
  Str.split sep (Str.join (Str.str1 sep) ls) = ls.
Proof.
  induction ls as [| x r IH]; intros Hne Hall; [congruence |].
  inversion Hall as [| ? ? Hx Hr]; subst.
  destruct r as [| y r].
  - simpl. now apply split_single.
  - change (Str.join (Str.str1 sep) (x :: y :: r))
      with (x ++ String sep (Str.join (Str.str1 sep) (y :: r)))%string.
    rewrite split_append_sep by exact Hx.
    f_equal. apply IH; [discriminate | exact Hr].
Qed.

Lemma hasChar_append (c : ascii) (a b : string) :
  Str.hasChar c (a ++ b) = (Str.hasChar c a || Str.hasChar c b)%bool.
Proof.
  induction a as [| x a IH]; simpl; [reflexivity |].
  now rewrite IH, orb_assoc.
Qed.

Lemma prefixOf_noLF (part : Change) : Str.hasChar Str.LF (prefixOf part) = false.
Proof.
  unfold prefixOf. destruct (added part), (removed part); reflexivity.
Qed.

(** C8.  For every edit script the line formatter and the text formatter
    agree: the rendered lines are, hunk by hunk, the fragments of the
    hunk's text split on line breaks without an empty last fragment; each
    line of an added hunk has the class [line add] and the prefix [+ ],
    each line of a removed hunk the class [line remove] and the prefix
    [- ], each line of an unchanged hunk the class [line unchanged] and a
    prefix of two blanks; the text form is these lines, each behind its
    prefix, joined by line breaks; and when there is at least one line,
    splitting the text form on line breaks gives back exactly the rendered
    lines. *)
Theorem formatters_agree (parts : list Change) :
  exists spans,
    renderedLines (Changes parts) = Some spans /\
    map (fun sp => (className sp, prefix sp, line sp)) spans =
      flat_map
        (fun part =>
           map (fun l =>
                  (if added part then "line add"
                   else if removed part then "line remove"
                   else "line unchanged",
                   if added part then "+ "
                   else if removed part then "- "
                   else "  ",
                   l))
               (keptLines (Str.split Str.LF (value part)))) parts /\
    diffText (Changes parts)
      = Str.join (Str.str1 Str.LF)
          (map (fun sp => (prefix sp ++ line sp)%string) spans) /\
    (spans <> [] ->
     Str.split Str.LF (diffText (Changes parts))
     = map (fun sp => (prefix sp ++ line sp)%string) spans).
Proof.
  eexists. split; [reflexivity |].
  change (fun sp : Span => (prefix sp ++ line sp)%string) with textOfSpan.
  assert (Htext :
    fold_left
      (fun lines part =>
         let arr := Str.split Str.LF (value part) in
         textLoop part (List.length arr) 0 arr lines) parts []
    = map textOfSpan
        (fst (fold_left
                (fun st part =>
                   let lines := Str.split Str.LF (value part) in
                   renderLoop part (List.length lines) 0 lines st)
                parts ([], 0)))).
  { now rewrite text_fold, render_fold. }
  split.
  { etransitivity; [apply render_fold_meta |].
    apply flat_map_ext. intros part. apply map_ext. intros l.
    unfold classNameOf, prefixOf.
    destruct (added part), (removed part); reflexivity. }
  assert (Hjoin :
    diffText (Changes parts)
    = Str.join (Str.str1 Str.LF)
        (map textOfSpan
           (fst (fold_left
                   (fun st part =>
                      let lines := Str.split Str.LF (value part) in
                      renderLoop part (List.length lines) 0 lines st)
                   parts ([], 0))))).
  { unfold diffText. f_equal. exact Htext. }
  split; [exact Hjoin |].
  - intros Hne. rewrite Hjoin.
    apply split_join.
    + intros Hnil. apply Hne. now apply map_eq_nil in Hnil.
    + rewrite render_fold. cbn [map app].
      apply Forall_forall. intros x Hx.
      apply in_flat_map in Hx. destruct Hx as [part [_ Hx]].
      apply in_map_iff in Hx. destruct Hx as [l [<- Hl]].
      rewrite hasChar_append, prefixOf_noLF. cbn [orb].
      apply keptLines_incl in Hl.
      revert l Hl. apply Forall_forall. apply split_fragments.
Qed.

End Formatters.

(* ================================================================== *)
(** * The line differencer *)

Section LineDiffFacts.
Import LineDiff.

Lemma append_empty_r (s : string) : (s ++ EmptyString)%string = s.
Proof. induction s as [| c s IH]; simpl; [reflexivity | now rewrite IH]. Qed.

Lemma append_assoc (a b c : string) :
  ((a ++ b) ++ c)%string = (a ++ (b ++ c))%string.
Proof. induction a as [| x a IH]; simpl; [reflexivity | now rewrite IH]. Qed.

(** The lines of a text, put together again, are the text. *)
Lemma linesOf_concat (s : string) : Str.concatAll (linesOf s) = s.
Proof.
  induction s as [| c r IH]; [reflexivity |].
  cbn [linesOf]. destruct (Ascii.eqb c Str.LF).
  - unfold Str.concatAll in *. cbn [fold_right]. now rewrite IH.
  - destruct (linesOf r) as [| l ls].
    + unfold Str.concatAll in *. simpl in *. now rewrite <- IH.
    + unfold Str.concatAll in *. cbn [fold_right] in *.
      now rewrite <- IH.
Qed.

(** Two equal line sequences are kept line by line. *)
Lemma script_same (l : list string) : script l l = map Keep l.
Proof.
  induction l as [| x l IH]; [reflexivity |].
  cbn [script map]. now rewrite String.eqb_refl, IH.
Qed.

Lemma coalesce_keeps (l : list string) :
  coalesce (map Keep l) =
  match l with
  | [] => []
  | _ :: _ => [mkChange (Str.concatAll l) false false]
  end.
Proof.
  induction l as [| x l IH]; [reflexivity |].
  cbn [map coalesce]. rewrite IH.
  destruct l as [| y l].
  - unfold Str.concatAll. simpl. now rewrite append_empty_r.
  - reflexivity.
Qed.

(** The old text is what the operations other than insertions carry, the
    new text what the operations other than deletions carry. *)
Lemma script_reconstructs (xs : list string) :
  forall ys,
    map opText (filter (fun op => inBefore (hunkOf op)) (script xs ys)) = xs /\
    map opText (filter (fun op => inAfter (hunkOf op)) (script xs ys)) = ys.
Proof.
  induction xs as [| x xs IHx]; intros ys.
  - destruct ys as [| y ys]; [split; reflexivity |].
    cbn [script]. split.
    + induction (y :: ys) as [| z zs IHz]; [reflexivity | exact IHz].
    + induction (y :: ys) as [| z zs IHz]; [reflexivity |].
      cbn [map filter hunkOf inAfter removed negb opText]. now rewrite IHz.
  - induction ys as [| y ys IHy].
    + cbn [script]. split.
      * induction (x :: xs) as [| z zs IHz]; [reflexivity |].
        cbn [map filter hunkOf inBefore added negb opText]. now rewrite IHz.
      * induction (x :: xs) as [| z zs IHz]; [reflexivity | exact IHz].
    + change (script (x :: xs) (y :: ys)) with
        (if String.eqb x y then Keep x :: script xs ys
         else if Nat.leb (cost (Del x :: script xs (y :: ys)))
                         (cost (Ins y :: script (x :: xs) ys))
              then Del x :: script xs (y :: ys)
              else Ins y :: script (x :: xs) ys).
      destruct (String.eqb x y) eqn:Hxy.
      * apply String.eqb_eq in Hxy. subst y.
        destruct (IHx ys) as [Hb Ha].
        split; cbn [map filter hunkOf inBefore inAfter added removed negb opText];
          [now rewrite Hb | now rewrite Ha].
      * destruct (Nat.leb _ _).
        -- destruct (IHx (y :: ys)) as [Hb Ha].
           split; cbn [map filter hunkOf inBefore inAfter added removed negb opText];
             [now rewrite Hb | exact Ha].
        -- destruct IHy as [Hb Ha].
           split; cbn [map filter hunkOf inBefore inAfter added removed negb opText];
             [exact Hb | now rewrite Ha].
Qed.

(** Joining adjacent operations of one kind does not change the text a
    side is made of. *)
Lemma coalesce_textOf (keep : Change -> bool) (ops : list Op) :
  (forall a b, sameKind a b = true -> keep a = keep b) ->
  (forall v a r, keep (mkChange v a r) = keep (mkChange EmptyString a r)) ->
  textOf keep (coalesce ops) =
  Str.concatAll (map opText (filter (fun op => keep (hunkOf op)) ops)).
Proof.
  intros Hkind Hval.
  induction ops as [| op ops IH]; [reflexivity |].
  cbn [coalesce filter].
  assert (Hop : value (hunkOf op) = opText op) by (destruct op; reflexivity).
  destruct (coalesce ops) as [| h hs] eqn:Hc.
  - unfold textOf in *. cbn [filter map] in *.
    destruct (keep (hunkOf op)); cbn [map]; unfold Str.concatAll in *;
      cbn [fold_right]; rewrite <- IH; [now rewrite Hop | reflexivity].
  - destruct (sameKind (hunkOf op) h) eqn:Hs.
    + unfold textOf in *. cbn [filter] in *.
      rewrite (Hval _ _ _), <- (Hval (value (hunkOf op))).
      replace (mkChange (value (hunkOf op)) (added (hunkOf op)) (removed (hunkOf op)))
        with (hunkOf op) by (destruct op; reflexivity).
      rewrite <- (Hkind _ _ Hs) in IH.
      destruct (keep (hunkOf op)); cbn [map value] in *;
        unfold Str.concatAll in *; cbn [fold_right] in *.
      * now rewrite <- IH, append_assoc, Hop.
      * exact IH.
    + unfold textOf in *. cbn [filter] in *.
      destruct (keep (hunkOf op)); cbn [map] in *;
        unfold Str.concatAll in *; cbn [fold_right] in *.
      * now rewrite <- IH, Hop.
      * exact IH.
Qed.

(** The reconstruction property the specification asks of the
    differencer. *)
Lemma diffLines_reconstructs (a b : string) :
  textOf inBefore (diffLines a b) = a /\ textOf inAfter (diffLines a b) = b.
Proof.
  unfold diffLines.
  destruct (script_reconstructs (linesOf a) (linesOf b)) as [Hb Ha].
  split; rewrite coalesce_textOf.
  - now rewrite Hb, linesOf_concat.
  - intros x y Hs. unfold inBefore, sameKind in *.
    apply andb_true_iff in Hs. destruct Hs as [Hs _].
    apply Bool.eqb_prop in Hs. now rewrite Hs.
  - reflexivity.
  - now rewrite Ha, linesOf_concat.
  - intros x y Hs. unfold inAfter, sameKind in *.
    apply andb_true_iff in Hs. destruct Hs as [_ Hs].
    apply Bool.eqb_prop in Hs. now rewrite Hs.
  - reflexivity.
Qed.

(** C7.  Diffing a text against itself gives a script of unchanged hunks
    only, whose texts put together are the text. *)
Theorem diffLines_identity (x : string) :
  Forall (fun c => added c = false /\ removed c = false) (diffLines x x) /\
  Str.concatAll (map value (diffLines x x)) = x.
Proof.
  unfold diffLines. rewrite script_same, coalesce_keeps.
  pose proof (linesOf_concat x) as Hx.
  destruct (linesOf x) as [| l ls].
  - split; [constructor | exact Hx].
  - split.
    + constructor; [split; reflexivity | constructor].
    + cbn [map value]. unfold Str.concatAll at 1. cbn [fold_right].
      now rewrite append_empty_r.
Qed.

End LineDiffFacts.

(* ================================================================== *)
(** * More on [useJsonDiff] *)

Section PipelineFacts.
Context {H : Host}.

Lemma failure_result_not_changes (x : option (Value Number)) (parts : list Change) :
  bind (String_ x) (fun s => Normal (ParseFailure s)) <> Normal (Changes parts).
Proof.
  destruct (String_ x) as [s | e]; simpl; discriminate.
Qed.

(** X1.  The result is a list of changes exactly when both texts parse. *)
Theorem useJsonDiff_changes_iff (beforeText afterText : string) (sk io : bool) :
  (exists parts, useJsonDiff beforeText afterText sk io = Normal (Changes parts))
  <->
  (instanceofError (tryParseJson (Str.trim beforeText)) = false /\
   instanceofError (tryParseJson (Str.trim afterText)) = false).
Proof.
  unfold useJsonDiff.
  destruct (tryParseJson (Str.trim beforeText)) as [bv | be],
           (tryParseJson (Str.trim afterText)) as [av | ae]; cbn [instanceofError];
    split.
  - intros _. now split.
  - intros _. eexists. reflexivity.
  - intros [parts Hp]. now apply failure_result_not_changes in Hp.
  - intros [_ Hf]. discriminate.
  - intros [parts Hp]. now apply failure_result_not_changes in Hp.
  - intros [Hf _]. discriminate.
  - intros [parts Hp]. now apply failure_result_not_changes in Hp.
  - intros [Hf _]. discriminate.
Qed.

(** X2.  When a side fails to parse, the two options have no effect on the
    result. *)
Theorem useJsonDiff_failure_ignores_options
  (beforeText afterText : string) (sk io sk' io' : bool) :
  (instanceofError (tryParseJson (Str.trim beforeText))
   || instanceofError (tryParseJson (Str.trim afterText)))%bool = true ->
  useJsonDiff beforeText afterText sk io = useJsonDiff beforeText afterText sk' io'.
Proof.
  intros Hfail. now rewrite !useJsonDiff_failure_branch by exact Hfail.
Qed.

Lemma getOwn_absent {V : Type} (k : string) (props : list (string * V)) :
  Obj.hasOwn k props = false -> Obj.getOwn k props = None.
Proof.
  unfold Obj.hasOwn. induction props as [| [k' v] r IH]; [reflexivity |].
  cbn [existsb Obj.getOwn fst]. intros Hf. apply orb_false_iff in Hf.
  destruct Hf as [Hk Hr]. rewrite Hk. now apply IH.
Qed.

Lemma optMessage_of_value (v : Value Number) :
  noOwnMessage (inl v) = true -> optMessage (inl v) = None.
Proof.
  destruct v as [| b | n | s | elems | props]; try reflexivity.
  cbn [noOwnMessage optMessage]. intros Hn. apply negb_true_iff in Hn.
  now apply getOwn_absent.
Qed.

(** X3.  [useJsonDiff] returns, and does not throw, whenever no parsed side is
    an object with an own property [message]. *)
Theorem useJsonDiff_returns (beforeText afterText : string) (sk io : bool) :
  noOwnMessage (tryParseJson (Str.trim beforeText)) = true ->
  noOwnMessage (tryParseJson (Str.trim afterText)) = true ->
  exists r, useJsonDiff beforeText afterText sk io = Normal r.
Proof.
  unfold useJsonDiff.
  destruct (tryParseJson (Str.trim beforeText)) as [bv | be],
           (tryParseJson (Str.trim afterText)) as [av | ae]; intros Hb Ha.
  - eexists. reflexivity.
  - rewrite (optMessage_of_value bv Hb). cbn. eexists. reflexivity.
  - rewrite (optMessage_of_value av Ha). cbn.
    destruct (String.eqb (message be) EmptyString); cbn; eexists; reflexivity.
  - cbn. destruct (String.eqb (message be) EmptyString); cbn; eexists; reflexivity.
Qed.

(** X4.  When the before text fails to parse with a message that is not empty,
    that message is the one reported, whatever the after text is. *)
Theorem useJsonDiff_before_message (beforeText afterText : string) (sk io : bool)
  (e : Error) :
  tryParseJson (Str.trim beforeText) = inr e ->
  String.eqb (message e) EmptyString = false ->
  useJsonDiff beforeText afterText sk io = Normal (ParseFailure (message e)).
Proof.
  intros Hb Hm.
  rewrite useJsonDiff_failure_branch by (rewrite Hb; reflexivity).
  rewrite Hb. cbn [optMessage orElse ToBoolean]. rewrite Hm. reflexivity.
Qed.

(** X5.  When only the after text fails to parse and the parsed before value is
    not an object with an own property [message], the message reported is
    the decoder message of the after text. *)
Theorem useJsonDiff_after_message (beforeText afterText : string) (sk io : bool)
  (bv : Value Number) (e : Error) :
  tryParseJson (Str.trim beforeText) = inl bv ->
  noOwnMessage (inl bv) = true ->
  tryParseJson (Str.trim afterText) = inr e ->
  useJsonDiff beforeText afterText sk io = Normal (ParseFailure (message e)).
Proof.
  intros Hb Hn Ha.
  apply (useJsonDiff_after_fails beforeText afterText sk io bv e Hb); [| exact Ha].
  now rewrite (optMessage_of_value bv Hn).
Qed.

Lemma trimStart_pad (w s : string) :
  allWhiteSpace w = true -> Str.trimStart (w ++ s) = Str.trimStart s.
Proof.
  induction w as [| c w IH]; [reflexivity |].
  cbn [allWhiteSpace append Str.trimStart]. intros Hw.
  apply andb_true_iff in Hw. destruct Hw as [Hc Hw]. rewrite Hc. now apply IH.
Qed.

Lemma trimEnd_blank (w : string) :
  allWhiteSpace w = true -> Str.trimEnd w = EmptyString.
Proof.
  induction w as [| c w IH]; [reflexivity |].
  cbn [allWhiteSpace Str.trimEnd]. intros Hw.
  apply andb_true_iff in Hw. destruct Hw as [Hc Hw].
  now rewrite IH, Hc by exact Hw.
Qed.

Lemma trimEnd_pad (s w : string) :
  allWhiteSpace w = true -> Str.trimEnd (s ++ w) = Str.trimEnd s.
Proof.
  intros Hw. induction s as [| c s IH].
  - cbn [append]. now rewrite trimEnd_blank.
  - cbn [append Str.trimEnd]. now rewrite IH.
Qed.

Lemma trimStart_blank (w : string) :
  allWhiteSpace w = true -> Str.trimStart w = EmptyString.
Proof.
  induction w as [| c w IH]; [reflexivity |].
  cbn [allWhiteSpace Str.trimStart]. intros Hw.
  apply andb_true_iff in Hw. destruct Hw as [Hc Hw]. rewrite Hc. now apply IH.
Qed.

Lemma trim_pad_end (s w : string) :
  allWhiteSpace w = true -> Str.trim (s ++ w) = Str.trim s.
Proof.
  intros Hw. unfold Str.trim. induction s as [| c s IH].
  - cbn [append]. now rewrite (trimStart_blank w Hw).
  - cbn [append Str.trimStart]. destruct (Str.isWhiteSpace c).
    + exact IH.
    + change (String c (s ++ w)) with (String c s ++ w). now apply trimEnd_pad.
Qed.

(** White space around a text is dropped by [trim]. *)
Lemma trim_pad (w1 s w2 : string) :
  allWhiteSpace w1 = true -> allWhiteSpace w2 = true ->
  Str.trim (w1 ++ s ++ w2) = Str.trim s.
Proof.
  intros H1 H2. unfold Str.trim at 1. rewrite trimStart_pad by exact H1.
  fold (Str.trim (s ++ w2)). now apply trim_pad_end.
Qed.

(** X6.  White space before and after either text does not change the
    result. *)
Theorem useJsonDiff_ignores_padding
  (b1 beforeText b2 a1 afterText a2 : string) (sk io : bool) :
  allWhiteSpace b1 = true -> allWhiteSpace b2 = true ->
  allWhiteSpace a1 = true -> allWhiteSpace a2 = true ->
  useJsonDiff (b1 ++ beforeText ++ b2) (a1 ++ afterText ++ a2) sk io
  = useJsonDiff beforeText afterText sk io.
Proof.
  intros Hb1 Hb2 Ha1 Ha2. unfold useJsonDiff.
  now rewrite !trim_pad by assumption.
Qed.

End PipelineFacts.

(* ================================================================== *)
(** * More on the actions *)

Section ActionFacts.
Context {H : Host}.

(** X7.  [onSwap] exchanges the two texts and changes nothing else, and
    applied twice it gives back the state. *)
Theorem onSwap_exchange_involutive (s : App.State) :
  App.before (App.onSwap s) = App.after s /\
  App.after (App.onSwap s) = App.before s /\
  App.sortKeys (App.onSwap s) = App.sortKeys s /\
  App.ignoreOrder (App.onSwap s) = App.ignoreOrder s /\
  App.copied (App.onSwap s) = App.copied s /\
  App.onSwap (App.onSwap s) = s.
Proof. destruct s. repeat split; reflexivity. Qed.

(** X8.  Formatting and swapping commute. *)
Theorem onFormat_onSwap_commute (s : App.State) :
  App.onFormat (App.onSwap s) = App.onSwap (App.onFormat s).
Proof.
  destruct s as [b a sk io cp]. unfold App.onFormat, App.onSwap.
  cbn [App.before App.after App.setBefore App.setAfter
       App.sortKeys App.ignoreOrder App.copied].
  destruct (tryParseJson a), (tryParseJson b); reflexivity.
Qed.

(** X9.  Formatting does not change the diff, on a host whose decoder reads
    each text as it reads the trimmed text and reads back the indented
    serialisation of every value it parsed from the two texts. *)
Theorem onFormat_keeps_diff (s : App.State) :
  JSON_parse (App.before s) = JSON_parse (Str.trim (App.before s)) ->
  JSON_parse (App.after s) = JSON_parse (Str.trim (App.after s)) ->
  (forall v, JSON_parse (App.before s) = Normal v ->
             JSON_parse (Str.trim (JSON_stringify_2 v)) = Normal v) ->
  (forall v, JSON_parse (App.after s) = Normal v ->
             JSON_parse (Str.trim (JSON_stringify_2 v)) = Normal v) ->
  App.diff (App.onFormat s) = App.diff s.
Proof.
  destruct s as [b a sk io cp].
  cbn [App.before App.after]. intros Hb Ha Rb Ra.
  unfold App.diff, App.onFormat, useJsonDiff, tryParseJson.
  cbn [App.before App.after App.setBefore App.setAfter
       App.sortKeys App.ignoreOrder App.copied].
  rewrite <- Hb, <- Ha.
  destruct (JSON_parse b) as [bv | be] eqn:Eb, (JSON_parse a) as [av | ae] eqn:Ea;
    cbn [App.before App.after App.setBefore App.setAfter
         App.sortKeys App.ignoreOrder App.copied];
    rewrite <- ?Hb, <- ?Ha, ?Eb, ?Ea, ?(Rb bv eq_refl), ?(Ra av eq_refl);
    reflexivity.
Qed.

End ActionFacts.

(* ================================================================== *)
(** * More on [normalizeForCompare] *)

Section MoreNormalizeFacts.
Context {H : Host} {L : HostLaws H}.

Lemma Enumerated_object (props : list (string * Value Number)) :
  Enumerated (JObject props) ->
  NoDup (map fst props) /\
  StronglySorted (cmpLe Obj.enumCompare) props /\
  Forall (fun kv => Enumerated (snd kv)) props.
Proof. intros He. now inversion He. Qed.

Lemma Enumerated_array (elems : list (Value Number)) :
  Enumerated (JArray elems) -> Forall Enumerated elems.
Proof. intros He. now inversion He. Qed.

(** X10.  With both options off, normalising changes nothing. *)
Theorem normalizeForCompare_off (v : Value Number) (options : Options) :
  sortKeys options = false -> ignoreArrayOrder options = false ->
  Enumerated v ->
  normalizeForCompare v options = v.
Proof.
  unfold normalizeForCompare. intros Hsk Hio.
  induction v as [| b | n | s | elems IH | props IH] using Value_ind';
    intros He; try reflexivity.
  - apply Enumerated_array in He. cbn [deep]. rewrite Hio. f_equal.
    apply map_fixed. intros x Hx. rewrite Forall_forall in IH, He.
    apply IH; [exact Hx | now apply He].
  - apply Enumerated_object in He. destruct He as [Hnd [Hs Hall]].
    rewrite deep_object_keeps_order by assumption. f_equal.
    apply map_fixed. intros [k x] Hx. cbn [fst snd]. f_equal.
    rewrite Forall_forall in IH, Hall.
    apply (IH (k, x) Hx). exact (Hall (k, x) Hx).
Qed.

(** X11.  Normalising an object keeps its properties: the same keys, each with
    its normalised value, none added and none dropped. *)
Theorem deep_object_entries (options : Options)
  (props : list (string * Value Number)) :
  NoDup (map fst props) ->
  exists out,
    normalizeForCompare (JObject props) options = JObject out /\
    Permutation out (map (fun kv => (fst kv, deep options (snd kv))) props) /\
    Permutation (map fst out) (map fst props).
Proof.
  intros Hnd. unfold normalizeForCompare. rewrite deep_object.
  eexists. split; [reflexivity |].
  assert (Hnde : NoDup (map fst (deepEntries options props))).
  { eapply Permutation_NoDup; [| exact Hnd]. symmetry. apply deepEntries_keys. }
  destruct (Object_fromEntries_spec _ Hnde) as [Hp _].
  split.
  - now rewrite Hp, deepEntries_perm.
  - rewrite (Permutation_map fst Hp). apply deepEntries_keys.
Qed.

(** X12.  With [sortKeys], two objects with the same properties in different
    orders normalise to the same object, when no two distinct keys compare
    equal. *)
Theorem deep_object_key_order_insensitive (options : Options)
  (ps qs : list (string * Value Number)) :
  sortKeys options = true ->
  NoDup (map fst ps) ->
  Permutation ps qs ->
  (forall a b, In a (map fst ps) -> In b (map fst ps) ->
               (localeCompare a b <= 0)%Z -> (localeCompare b a <= 0)%Z -> a = b) ->
  normalizeForCompare (JObject ps) options = normalizeForCompare (JObject qs) options.
Proof.
  intros Hsk Hnd Hp Hanti. unfold normalizeForCompare.
  rewrite !deep_object. do 2 f_equal. unfold deepEntries. rewrite Hsk.
  set (f := fun kv : string * Value Number => (fst kv, deep options (snd kv))).
  assert (Hkeys : map fst (map f ps) = map fst ps)
    by (rewrite map_map; reflexivity).
  apply (Array_sort_perm_unique compareKeys compareKeys_total compareKeys_trans).
  - now apply Permutation_map.
  - intros a b Ha Hb Hab Hba.
    apply (entry_of_key (map f ps)); [now rewrite Hkeys | exact Ha | exact Hb |].
    apply Hanti; try assumption; rewrite <- Hkeys; now apply in_map.
Qed.

Lemma SortedArrays_entries (options : Options)
  (props out : list (string * Value Number)) :
  Forall (fun kv => SortedArrays (deep options (snd kv))) props ->
  Permutation out (map (fun kv => (fst kv, deep options (snd kv))) props) ->
  Forall (fun kv => SortedArrays (snd kv)) out.
Proof.
  intros Hall Hp. eapply Permutation_Forall; [symmetry; exact Hp |].
  rewrite Forall_forall in Hall |- *. intros kv Hkv.
  apply in_map_iff in Hkv. destruct Hkv as [x [<- Hx]]. cbn [snd].
  now apply Hall.
Qed.

(** X15.  With [ignoreArrayOrder], every array of the normalised value, at any
    depth, is in ascending order of its elements' serialisations. *)
Theorem normalizeForCompare_sorts_all_arrays (v : Value Number) (options : Options) :
  ignoreArrayOrder options = true ->
  UniqueKeys v ->
  SortedArrays (normalizeForCompare v options).
Proof.
  unfold normalizeForCompare. intros Hio.
  induction v as [| b | n | s | elems IH | props IH] using Value_ind';
    intros Huk; try solve [cbn [deep]; constructor].
  - inversion Huk as [| | | | ? Hall |]; subst.
    rewrite deep_array_sorted by exact Hio. constructor.
    + eapply Permutation_Forall; [symmetry; apply Array_sort_perm |].
      rewrite Forall_forall in IH, Hall |- *. intros y Hy.
      apply in_map_iff in Hy. destruct Hy as [x [<- Hx]].
      apply IH; [exact Hx | now apply Hall].
    + apply (Array_sort_sorted compareSerialized
               compareSerialized_total compareSerialized_trans).
  - inversion Huk as [| | | | | ? Hnd Hall]; subst.
    rewrite deep_object. constructor.
    assert (Hnde : NoDup (map fst (deepEntries options props))).
    { eapply Permutation_NoDup; [| exact Hnd]. symmetry. apply deepEntries_keys. }
    destruct (Object_fromEntries_spec _ Hnde) as [Hp _].
    apply (SortedArrays_entries options props).
    + rewrite Forall_forall in IH, Hall |- *. intros kv Hkv.
      apply IH; [exact Hkv | now apply Hall].
    + now rewrite Hp, deepEntries_perm.
Qed.

End MoreNormalizeFacts.

(* ================================================================== *)
(** * More on the formatters *)

Section MoreFormatters.
Import Format.

Lemma ofN_inj (n m : N) : Str.ofN n = Str.ofN m -> n = m.
Proof.
  unfold Str.ofN. intros Heq.
  assert (Hu : N.to_uint n = N.to_uint m).
  { pose proof (NilEmpty.usu (N.to_uint n)) as H1.
    pose proof (NilEmpty.usu (N.to_uint m)) as H2.
    rewrite Heq in H1. congruence. }
  rewrite <- (DecimalN.Unsigned.of_to n), <- (DecimalN.Unsigned.of_to m).
  now rewrite Hu.
Qed.

Lemma keysFrom_app (k n m : nat) :
  keysFrom k (n + m) = (keysFrom k n ++ keysFrom (k + n) m)%list.
Proof. unfold keysFrom. now rewrite seq_app, map_app. Qed.

Lemma keysFrom_NoDup (k n : nat) : NoDup (keysFrom k n).
Proof.
  unfold keysFrom. apply Injective_map_NoDup; [| apply seq_NoDup].
  intros i j Hij. cbn in Hij. injection Hij as Hij.
  apply ofN_inj in Hij. now apply Nat2N.inj.
Qed.

Lemma spansFrom_keys (part : Change) (ls : list string) :
  forall k, map key (spansFrom part k ls) = keysFrom k (List.length ls) /\
            List.length (spansFrom part k ls) = List.length ls.
Proof.
  induction ls as [| l ls IH]; intros k; [split; reflexivity |].
  destruct (IH (S k)) as [IH1 IH2].
  cbn [spansFrom map key List.length]. rewrite IH1, IH2.
  split; reflexivity.
Qed.

(** The loop invariant of [renderedLines]: the keys so far are
    [l-0], [l-1], ... and the counter is their number. *)
Lemma render_fold_keys (parts : list Change) :
  forall elements lineKey,
    map key elements = keysFrom 0 (List.length elements) ->
    lineKey = List.length elements ->
    let st := fold_left
                (fun st part =>
                   let lines := Str.split Str.LF (value part) in
                   renderLoop part (List.length lines) 0 lines st)
                parts (elements, lineKey) in
    map key (fst st) = keysFrom 0 (List.length (fst st)).
Proof.
  induction parts as [| part parts IH]; intros elements lineKey Hk Hn.
  - exact Hk.
  - cbn [fold_left]. cbv zeta.
    rewrite renderLoop_spec by reflexivity.
    destruct (spansFrom_keys part (keptLines (Str.split Str.LF (value part))) lineKey)
      as [Hs Hl].
    apply IH.
    + rewrite map_app, length_app, keysFrom_app, Hk, Hs, Hl.
      cbn [Nat.add]. now rewrite <- Hn.
    + now rewrite length_app, Hl, Hn.
Qed.

(** X16.  The keys of the rendered spans are [l-0], [l-1], ... in order, and so
    pairwise distinct. *)
Theorem renderedLines_keys (parts : list Change) :
  exists spans,
    renderedLines (Changes parts) = Some spans /\
    map key spans = keysFrom 0 (List.length spans) /\
    NoDup (map key spans).
Proof.
  eexists. split; [reflexivity |].
  match goal with
  | |- map key ?s = _ /\ _ =>
      assert (Hk : map key s = keysFrom 0 (List.length s))
        by exact (render_fold_keys parts [] 0 eq_refl eq_refl)
  end.
  split; [exact Hk |].
  rewrite Hk. apply keysFrom_NoDup.
Qed.

Lemma lines_of_meta (spans : list Span) (parts : list Change) :
  map (fun sp => (className sp, prefix sp, line sp)) spans
  = flat_map (fun part =>
                map (fun l => (("line " ++ classNameOf part)%string,
                               prefixOf part, l))
                    (linesOfPart part)) parts ->
  map line spans = flat_map linesOfPart parts.
Proof.
  intros Hm. apply (f_equal (map snd)) in Hm.
  rewrite map_map in Hm. cbn [snd] in Hm.
  etransitivity; [exact Hm |].
  clear Hm. induction parts as [| part parts IH]; [reflexivity |].
  cbn [flat_map]. rewrite map_app, IH, map_map. cbn [snd].
  now rewrite map_id.
Qed.

Lemma render_fold_line_list (parts : list Change) :
  map line
    (fst (fold_left
            (fun st part =>
               let lines := Str.split Str.LF (value part) in
               renderLoop part (List.length lines) 0 lines st)
            parts ([], 0)))
  = flat_map linesOfPart parts.
Proof. apply lines_of_meta, render_fold_meta. Qed.

(** X17.  No rendered line contains a line break. *)
Theorem renderedLines_no_line_break (parts : list Change) :
  exists spans,
    renderedLines (Changes parts) = Some spans /\
    Forall (fun sp => Str.hasChar Str.LF (line sp) = false) spans.
Proof.
  eexists. split; [reflexivity |].
  apply Forall_forall. intros sp Hsp.
  assert (Hin : In (line sp) (flat_map linesOfPart parts)).
  { rewrite <- render_fold_line_list. now apply in_map. }
  apply in_flat_map in Hin. destruct Hin as [part [_ Hl]].
  apply keptLines_incl in Hl. revert Hl.
  generalize (line sp). apply Forall_forall. apply split_fragments.
Qed.

Lemma split_snoc_sep (sep : ascii) (s : string) :
  Str.split sep (s ++ Str.str1 sep) = (Str.split sep s ++ [EmptyString])%list.
Proof.
  induction s as [| c s IH].
  - cbn. now rewrite Ascii.eqb_refl.
  - cbn [append Str.split]. rewrite IH.
    destruct (Ascii.eqb c sep); [reflexivity |].
    pose proof (split_nonempty sep s) as Hne.
    destruct (Str.split sep s) as [| f fs]; [congruence | reflexivity].
Qed.

Lemma keptLines_snoc_empty (l : list string) :
  l <> [] -> keptLines (l ++ [EmptyString]) = l.
Proof.
  induction l as [| x r IH]; intros Hne; [congruence |].
  destruct r as [| y r].
  - reflexivity.
  - change (keptLines ((x :: y :: r) ++ [EmptyString]))
      with (x :: keptLines ((y :: r) ++ [EmptyString])).
    rewrite IH by discriminate. reflexivity.
Qed.

(** X18.  The line break that ends a hunk adds no line: a hunk whose text is
    [s] followed by a line break is rendered, and exported, as the
    fragments of [s]. *)
Theorem trailing_line_break_adds_no_line (s : string) (isAdded isRemoved : bool) :
  let part := mkChange (s ++ Str.str1 Str.LF) isAdded isRemoved in
  exists spans,
    renderedLines (Changes [part]) = Some spans /\
    map line spans = Str.split Str.LF s /\
    diffText (Changes [part])
    = Str.join (Str.str1 Str.LF)
        (map (fun l => (prefixOf part ++ l)%string) (Str.split Str.LF s)).
Proof.
  intros part.
  assert (Hl : linesOfPart part = Str.split Str.LF s).
  { unfold linesOfPart, part. cbn [value]. rewrite split_snoc_sep.
    apply keptLines_snoc_empty, split_nonempty. }
  eexists. split; [reflexivity |]. split.
  - rewrite render_fold_line_list. cbn [flat_map]. now rewrite app_nil_r.
  - unfold diffText. f_equal.
    pose proof (text_fold [part] []) as Ht. cbv zeta in Ht.
    etransitivity; [exact Ht |].
    cbn [flat_map app]. now rewrite app_nil_r, Hl.
Qed.

End MoreFormatters.

(* ================================================================== *)
(** * The build configuration *)

(** X19.  The [base] path of the build: it is [/] whenever [CI] is not
    set or is empty; when [CI] is set and not empty it is the value of
    [VITE_BASE] if that is set and not empty, and [/] otherwise; it is
    never empty. *)
Theorem vite_base_cases (env : Vite.Env) :
  (env "CI" = None \/ env "CI" = Some EmptyString -> Vite.base env = "/") /\
  (forall ci b,
      env "CI" = Some ci -> String.eqb ci EmptyString = false ->
      env "VITE_BASE" = Some b -> String.eqb b EmptyString = false ->
      Vite.base env = b) /\
  (forall ci,
      env "CI" = Some ci -> String.eqb ci EmptyString = false ->
      env "VITE_BASE" = None \/ env "VITE_BASE" = Some EmptyString ->
      Vite.base env = "/") /\
  String.eqb (Vite.base env) EmptyString = false.
Proof.
  unfold Vite.base, Vite.repoBase, Vite.truthy.
  split; [| split; [| split]].
  - intros [Hci | Hci]; rewrite Hci; reflexivity.
  - intros ci b Hci Hne Hb Hbne. now rewrite Hci, Hne, Hb, Hbne.
  - intros ci Hci Hne [Hb | Hb]; rewrite Hci, Hne, Hb; reflexivity.
  - destruct (env "CI") as [ci |]; [| reflexivity].
    destruct (String.eqb ci EmptyString); cbn [negb]; [reflexivity |].
    destruct (env "VITE_BASE") as [b |]; [| reflexivity].
    destruct (String.eqb b EmptyString) eqn:Hb; cbn [negb]; [reflexivity | exact Hb].
Qed.

(* ================================================================== *)
(** * The further properties on the concrete host *)

Section MoreOnModelHost.
Import Examples MoreExamples.
#[local] Existing Instance ModelHost.

(** An empty before text: the options do not matter. *)
Lemma useJsonDiff_failure_ignores_options_witness :
  (instanceofError (tryParseJson (Str.trim EmptyString))
   || instanceofError (tryParseJson (Str.trim text_a1)))%bool = true /\
  useJsonDiff EmptyString text_a1 true false
  = useJsonDiff EmptyString text_a1 false true.
Proof.
  split; [vm_compute; reflexivity |].
  apply (@useJsonDiff_failure_ignores_options ModelHost).
  vm_compute. reflexivity.
Defined.

(** [{"a":1}] against [not json]: a result is returned. *)
Lemma useJsonDiff_returns_witness :
  noOwnMessage (tryParseJson (Str.trim text_a1)) = true /\
  noOwnMessage (tryParseJson (Str.trim text_not_json)) = true /\
  exists r, useJsonDiff text_a1 text_not_json true false = Normal r.
Proof.
  split; [vm_compute; reflexivity |].
  split; [vm_compute; reflexivity |].
  apply (@useJsonDiff_returns ModelHost); vm_compute; reflexivity.
Defined.

(** An empty before text against [{"message":"hi"}]: the decoder message
    of the before text is reported. *)
Lemma useJsonDiff_before_message_witness :
  exists e,
    tryParseJson (Str.trim EmptyString) = inr e /\
    String.eqb (message e) EmptyString = false /\
    useJsonDiff EmptyString text_message_hi true false
    = Normal (ParseFailure (message e)).
Proof.
  eexists.
  split; [vm_compute; reflexivity |].
  split; [vm_compute; reflexivity |].
  apply (@useJsonDiff_before_message ModelHost); vm_compute; reflexivity.
Defined.

(** [{"a":1}] against [not json]: the decoder message of the after text
    is reported. *)
Lemma useJsonDiff_after_message_witness :
  exists bv e,
    tryParseJson (Str.trim text_a1) = inl bv /\
    noOwnMessage (inl bv) = true /\
    tryParseJson (Str.trim text_not_json) = inr e /\
    useJsonDiff text_a1 text_not_json true false
    = Normal (ParseFailure (message e)).
Proof.
  eexists. eexists.
  split; [vm_compute; reflexivity |].
  split; [vm_compute; reflexivity |].
  split; [vm_compute; reflexivity |].
  apply (@useJsonDiff_after_message ModelHost _ _ _ _
           (JObject [("a", num 1)])); vm_compute; reflexivity.
Defined.

(** Blanks and line breaks around [{"a":1}] and [not json]. *)
Lemma useJsonDiff_ignores_padding_witness :
  allWhiteSpace "  " = true /\
  allWhiteSpace (Str.str1 Str.LF) = true /\
  useJsonDiff ("  " ++ text_a1 ++ Str.str1 Str.LF)
              (Str.str1 Str.LF ++ text_not_json ++ "  ") true false
  = useJsonDiff text_a1 text_not_json true false.
Proof.
  split; [reflexivity |].
  split; [reflexivity |].
  apply (@useJsonDiff_ignores_padding ModelHost); reflexivity.
Defined.

(** The state with the texts [{"a":1}] and [[2, 1]]: formatting keeps the
    diff. *)
Lemma onFormat_keeps_diff_witness :
  JSON_parse (App.before parsedState)
    = JSON_parse (Str.trim (App.before parsedState)) /\
  JSON_parse (App.after parsedState)
    = JSON_parse (Str.trim (App.after parsedState)) /\
  App.before (App.onFormat parsedState) <> App.before parsedState /\
  App.diff (App.onFormat parsedState) = App.diff parsedState.
Proof.
  split; [vm_compute; reflexivity |].
  split; [vm_compute; reflexivity |].
  split; [vm_compute; discriminate |].
  apply (@onFormat_keeps_diff ModelHost).
  - vm_compute. reflexivity.
  - vm_compute. reflexivity.
  - intros v Hv. vm_compute in Hv. injection Hv as <-. vm_compute. reflexivity.
  - intros v Hv. vm_compute in Hv. injection Hv as <-. vm_compute. reflexivity.
Defined.

Lemma value_mixed_enumerated : Enumerated value_mixed.
Proof.
  unfold value_mixed.
  repeat first
    [ apply (@En_number ModelHost) | apply (@En_array ModelHost)
    | apply (@En_object ModelHost)
    | apply nodupb_sound; vm_compute; reflexivity
    | apply Forall_cons | apply Forall_nil
    | apply SSorted_cons | apply SSorted_nil
    | (vm_compute; discriminate) ].
Qed.

(** The sample value, with both options off. *)
Lemma normalizeForCompare_off_witness :
  Enumerated value_mixed /\
  normalizeForCompare value_mixed (mkOptions false false) = value_mixed.
Proof.
  split; [exact value_mixed_enumerated |].
  apply (@normalizeForCompare_off ModelHost);
    [reflexivity | reflexivity | exact value_mixed_enumerated].
Defined.

Lemma keys_b_a_NoDup : NoDup (map fst [("b", num 1); ("a", num 2)]).
Proof. apply nodupb_sound. vm_compute. reflexivity. Qed.

(** The properties of [{"b":1,"a":2}] are kept. *)
Lemma deep_object_entries_witness :
  NoDup (map fst [("b", num 1); ("a", num 2)]) /\
  exists out,
    normalizeForCompare value_b_a (mkOptions true false) = JObject out /\
    Permutation out
      (map (fun kv => (fst kv, deep (mkOptions true false) (snd kv)))
           [("b", num 1); ("a", num 2)]) /\
    Permutation (map fst out) (map fst [("b", num 1); ("a", num 2)]).
Proof.
  split; [exact keys_b_a_NoDup |].
  apply (@deep_object_entries ModelHost). exact keys_b_a_NoDup.
Defined.

(** [{"b":1,"a":2}] and [{"a":2,"b":1}] normalise to the same object. *)
Lemma deep_object_key_order_insensitive_witness :
  Permutation [("b", num 1); ("a", num 2)] [("a", num 2); ("b", num 1)] /\
  normalizeForCompare value_b_a (mkOptions true false)
  = normalizeForCompare value_a_b (mkOptions true false).
Proof.
  split; [apply perm_swap |].
  apply (@deep_object_key_order_insensitive ModelHost ModelHostLaws).
  - reflexivity.
  - exact keys_b_a_NoDup.
  - apply perm_swap.
  - intros a b _ _. apply codeUnitCompare_antisym.
Defined.

(** Every array of the normalised sample is sorted. *)
Lemma normalizeForCompare_sorts_all_arrays_witness :
  UniqueKeys value_mixed /\
  SortedArrays (normalizeForCompare value_mixed (mkOptions false true)).
Proof.
  split; [exact value_mixed_unique_keys |].
  apply (@normalizeForCompare_sorts_all_arrays ModelHost ModelHostLaws);
    [reflexivity | exact value_mixed_unique_keys].
Defined.

(** The sample [{"b":1,"a":2}] with [sortKeys]. *)
Lemma deep_object_sorts_other_keys_witness :
  NoDup (map fst [("b", num 1); ("a", num 2)]) /\
  exists out,
    deep (mkOptions true false) value_b_a = JObject out /\
    Permutation out
      (map (fun kv => (fst kv, deep (mkOptions true false) (snd kv)))
           [("b", num 1); ("a", num 2)]) /\
    StronglySorted (cmpLe Obj.enumCompare) out /\
    StronglySorted (cmpLe compareKeys) (Obj.otherEntries out).
Proof.
  split; [exact keys_b_a_NoDup |].
  apply (@deep_object_sorts_other_keys ModelHost ModelHostLaws);
    [reflexivity | exact keys_b_a_NoDup].
Defined.

Lemma props_b_a_enumerated :
  StronglySorted (cmpLe (@Obj.enumCompare (Value Model.MNumber)))
    [("b", num 1); ("a", num 2)].
Proof.
  repeat first [ apply SSorted_cons | apply SSorted_nil
               | apply Forall_cons | apply Forall_nil
               | (vm_compute; discriminate) ].
Qed.

(** The sample [{"b":1,"a":2}] without [sortKeys]. *)
Lemma deep_object_keeps_order_witness :
  deep (mkOptions false true) value_b_a
  = JObject (map (fun kv => (fst kv, deep (mkOptions false true) (snd kv)))
               [("b", num 1); ("a", num 2)]).
Proof.
  apply (@deep_object_keeps_order ModelHost);
    [reflexivity | exact keys_b_a_NoDup | exact props_b_a_enumerated].
Defined.

End MoreOnModelHost.
